(** * ClawOps fleet health monitor

    A shallow embedding of [HealthMonitorService], the background service
    of the openclaw-clawops plugin ([services/health-monitor.ts], loaded by
    the plugin's [index.ts]), and of the types it consumes and produces,
    followed by the properties of its sweep: rule evaluation, suppression
    bookkeeping, recovery edge detection, event routing, dispatch, and the
    error handling of the sweep and of the scheduler.

    Conventions of the embedding.
    - Instance counts, queue depths, minutes and [Date] values (epoch
      milliseconds) are integers ([Z]); health scores, percentages and
      dollar amounts are rationals ([Q]), compared as JavaScript compares
      finite numbers.  [Date] values are taken to stay in the range in
      which [toISOString] is defined.
    - A [Map<string, Date>] is a [gmap string Z]; a [Record<string, _>]
      consumed through [Object.entries] is an association list in
      iteration order.
    - Methods of the class are state transformers over the service object
      that may throw and that leave a trace of console lines and HTTP
      requests ([Method]).  A throw keeps the state reached so far, as an
      exception leaves the fields already assigned.
    - A sweep is given one clock reading; the [Date.now()] and [new Date()]
      calls made inside one sweep all return it, so the duration reported
      by the closing console line is not represented.  Time stamps are
      kept as epoch milliseconds instead of their ISO-8601 rendering, and
      the free-text [message] entry of a payload, which renders numbers the
      payload already carries, is left out.

    The file has three parts: the embedding; a functional reading of one
    sweep together with the observations and sample data the statements
    use; and the lemmas and theorems. *)

From Stdlib Require Import ZArith QArith Qabs.
From stdpp Require Import base option list strings gmap.

Local Open Scope Z_scope.

(* ================================================================== *)
(** * Fleet status snapshot ([tools/fleet-status.ts]) *)
(* ================================================================== *)

Inductive Severity := SevInfo | SevWarning | SevCritical.

Record Alert := {
  severity : Severity;
  instanceId : option string;
  message : string;
}.

Record ProviderSummary := {
  total : Z;
  active : Z;
  degraded : Z;
  failed : Z;
  healthScore : Q;
  avgProvisionTimeSecs : Q;
  monthlyCostUsd : Q;
}.

Record CostSummary := {
  monthlyActualUsd : Q;
  monthlyProjectedUsd : Q;
  deviationPct : Q;
  weeklyActualUsd : Q;
  perActiveAccountUsd : Q;
}.

(** [FleetStatusResult] is a compile-time annotation on [response.data];
    the body of the HTTP response is not checked against it.  The three
    object-valued members that the checks dereference are therefore
    optional here ([None] stands for [undefined] or [null] at run time),
    and [conforms] picks out the snapshots that inhabit the declared
    interface.  The members [byTier] and [instances], which the monitor
    never reads, are not represented. *)
Record FleetStatusResult := {
  snapshotId : string;
  capturedAt : string;
  totalInstances : Z;
  activePairs : Z;
  degradedInstances : Z;
  failedInstances : Z;
  bootstrappingInstances : Z;
  unpaired : Z;
  byProvider : option (list (string * ProviderSummary));
  cost : option CostSummary;
  alerts : option (list Alert);
}.

(** An object holds each of its keys once. *)
Fixpoint distinctKeys {A} (l : list (string * A)) : bool :=
  match l with
  | [] => true
  | (k, _) :: l' => negb (bool_decide (k ∈ l'.*1)) && distinctKeys l'
  end.

Definition conforms (fleet : FleetStatusResult) : bool :=
  match byProvider fleet, cost fleet, alerts fleet with
  | Some entries, Some _, Some _ => distinctKeys entries
  | _, _, _ => false
  end.

(* ================================================================== *)
(** * Events, thresholds and configuration *)
(* ================================================================== *)

Inductive MonitorEventType :=
  | INSTANCE_DEGRADED
  | INSTANCE_FAILED
  | PAIR_FAILED
  | COST_ANOMALY
  | PROVISION_QUEUE_BACKLOG
  | PROVIDER_DEGRADED
  | FLEET_RECOVERING
  | FLEET_HEALTHY.

Inductive Priority := low | medium | high | critical.

Inductive TargetAgent := guardian | ledger | forge | commander.

#[global] Instance MonitorEventType_eq_dec : EqDecision MonitorEventType.
Proof. solve_decision. Defined.
#[global] Instance Priority_eq_dec : EqDecision Priority.
Proof. solve_decision. Defined.
#[global] Instance TargetAgent_eq_dec : EqDecision TargetAgent.
Proof. solve_decision. Defined.
#[global] Instance Severity_eq_dec : EqDecision Severity.
Proof. solve_decision. Defined.

(** [`evt-${Date.now()}-${suffix}`] *)
Record EventId := { stamp : Z; suffix : string }.

(** The payload objects built by the five checks, one constructor per
    object literal. *)
Inductive Payload :=
  | DegradedPayload (degradedCount failedCount : Z)
      (byProviderBreakdown : option (list (string * ProviderSummary)))
  | FailedPayload (failedCount : Z) (criticalAlerts : list Alert)
  | CostPayload (actualUsd projectedUsd signedDeviationPct : Q)
      (direction : string)
  | QueuePayload (queueDepth bootstrapping : Z)
  | ProviderPayload (provider : string) (score : Q)
      (activeInstances degradedOnProvider : Z)
  | RecoveryPayload (previousFailed previousDegraded : Z).

Record MonitorEvent := {
  eventId : EventId;
  type : MonitorEventType;
  priority : Priority;
  timestamp : Z;
  targetAgent : TargetAgent;
  payload : Payload;
  suppressUntil : option Z;
}.

Record MonitorThresholds := {
  instanceDegradedScore : Q;
  costAnomalyPct : Q;
  provisionQueueDepth : Z;
  providerDegradedScore : Q;
  degradedSuppressionMins : Z;
}.

Definition DEFAULT_THRESHOLDS : MonitorThresholds := {|
  instanceDegradedScore := 50;
  costAnomalyPct := 15;
  provisionQueueDepth := 20;
  providerDegradedScore := 75;
  degradedSuppressionMins := 30;
|}.

(** [Partial<MonitorThresholds>] *)
Record PartialThresholds := {
  instanceDegradedScore' : option Q;
  costAnomalyPct' : option Q;
  provisionQueueDepth' : option Z;
  providerDegradedScore' : option Q;
  degradedSuppressionMins' : option Z;
}.

(** [{ ...DEFAULT_THRESHOLDS, ...thresholds }] *)
Definition overrideThresholds (o : option PartialThresholds) : MonitorThresholds :=
  match o with
  | None => DEFAULT_THRESHOLDS
  | Some p => {|
      instanceDegradedScore :=
        default (instanceDegradedScore DEFAULT_THRESHOLDS) (instanceDegradedScore' p);
      costAnomalyPct :=
        default (costAnomalyPct DEFAULT_THRESHOLDS) (costAnomalyPct' p);
      provisionQueueDepth :=
        default (provisionQueueDepth DEFAULT_THRESHOLDS) (provisionQueueDepth' p);
      providerDegradedScore :=
        default (providerDegradedScore DEFAULT_THRESHOLDS) (providerDegradedScore' p);
      degradedSuppressionMins :=
        default (degradedSuppressionMins DEFAULT_THRESHOLDS) (degradedSuppressionMins' p);
    |}
  end.

Record ClawOpsConfig := {
  gfApiBase : string;
  gfApiKey : string;
  healthPollIntervalMs : option Z;
  guardianSessionId : option string;
  ledgerSessionId : option string;
  commanderSessionId : option string;
}.

(* ================================================================== *)
(** * The service object and its methods' effects *)
(* ================================================================== *)

Record HealthMonitorService := {
  config : ClawOpsConfig;
  thresholds : MonitorThresholds;
  running : bool;
  pollTimer : option Z;  (* the armed interval, in milliseconds *)
  suppressedInstances : gmap string Z;
  suppressedProviders : gmap string Z;
  lastKnownState : option FleetStatusResult;
}.

(** [constructor(config, thresholds?)] *)
Definition newHealthMonitorService
    (cfg : ClawOpsConfig) (o : option PartialThresholds) : HealthMonitorService := {|
  config := cfg;
  thresholds := overrideThresholds o;
  running := false;
  pollTimer := None;
  suppressedInstances := ∅;
  suppressedProviders := ∅;
  lastKnownState := None;
|}.

Definition set_running (b : bool) (this : HealthMonitorService) := {|
  config := config this; thresholds := thresholds this;
  running := b; pollTimer := pollTimer this;
  suppressedInstances := suppressedInstances this;
  suppressedProviders := suppressedProviders this;
  lastKnownState := lastKnownState this |}.

Definition set_pollTimer (t : option Z) (this : HealthMonitorService) := {|
  config := config this; thresholds := thresholds this;
  running := running this; pollTimer := t;
  suppressedInstances := suppressedInstances this;
  suppressedProviders := suppressedProviders this;
  lastKnownState := lastKnownState this |}.

Definition set_suppressedInstances (l : gmap string Z) (this : HealthMonitorService) := {|
  config := config this; thresholds := thresholds this;
  running := running this; pollTimer := pollTimer this;
  suppressedInstances := l;
  suppressedProviders := suppressedProviders this;
  lastKnownState := lastKnownState this |}.

Definition set_suppressedProviders (l : gmap string Z) (this : HealthMonitorService) := {|
  config := config this; thresholds := thresholds this;
  running := running this; pollTimer := pollTimer this;
  suppressedInstances := suppressedInstances this;
  suppressedProviders := l;
  lastKnownState := lastKnownState this |}.

Definition set_lastKnownState (s : option FleetStatusResult) (this : HealthMonitorService) := {|
  config := config this; thresholds := thresholds this;
  running := running this; pollTimer := pollTimer this;
  suppressedInstances := suppressedInstances this;
  suppressedProviders := suppressedProviders this;
  lastKnownState := s |}.

Inductive Exn :=
  | TypeError (what : string)
  | RequestError (what : string).

Inductive Outcome (A : Type) :=
  | Returned (a : A)
  | Threw (e : Exn).
Arguments Returned {A} a.
Arguments Threw {A} e.

Inductive Level := Debug | Log | Warn | Error.

(** The console lines of the service.  [EmitLine] is the line printed on
    entry to [emitEvent]; it is kept together with the event it reports. *)
Inductive LogLine :=
  | AlreadyRunning
  | Starting (intervalMs : Z)
  | InitialSweepFailed (e : Exn)
  | SweepFailed (e : Exn)
  | Stopped
  | RunningSweep
  | FetchFailed (e : Exn)
  | EmitFailed (t : MonitorEventType) (e : Exn)
  | SweepComplete (emitted : nat)
  | EmitLine (event : MonitorEvent)
  | NoSessionId (agent : TargetAgent).

Inductive Effect :=
  | Console (lvl : Level) (line : LogLine)
  | HttpGet (url bearer : string)
  | HttpPost (url : string) (body : MonitorEvent) (bearer : string).

(** What the process sees of the outside during one sweep. *)
Record World := {
  clock : Z;
  fleetEndpoint : Outcome FleetStatusResult;
  sessionEndpoint : string → MonitorEvent → Outcome unit;
}.

Record Run (A : Type) := mkRun {
  result : Outcome A;
  self : HealthMonitorService;
  effects : list Effect;
}.
Arguments mkRun {A} result self effects.
Arguments result {A} r.
Arguments self {A} r.
Arguments effects {A} r.

Definition Method (A : Type) : Type := HealthMonitorService → Run A.

#[global] Instance Method_ret : MRet Method :=
  λ A a this, mkRun (Returned a) this [].

#[global] Instance Method_bind : MBind Method :=
  λ A B k c this,
    let r := c this in
    match result r with
    | Returned a =>
        let r' := k a (self r) in
        mkRun (result r') (self r') (effects r ++ effects r')
    | Threw e => mkRun (Threw e) (self r) (effects r)
    end.

Definition throw {A} (e : Exn) : Method A :=
  λ this, mkRun (Threw e) this [].

(** [try { c } catch (e) { h e }], and [c.catch(h)] on an awaited promise. *)
Definition catch {A} (c : Method A) (h : Exn → Method A) : Method A :=
  λ this,
    let r := c this in
    match result r with
    | Returned a => r
    | Threw e =>
        let r' := h e (self r) in
        mkRun (result r') (self r') (effects r ++ effects r')
    end.

Definition gets {A} (f : HealthMonitorService → A) : Method A :=
  λ this, mkRun (Returned (f this)) this [].

Definition modify (f : HealthMonitorService → HealthMonitorService) : Method unit :=
  λ this, mkRun (Returned tt) (f this) [].

Definition perform (e : Effect) : Method unit :=
  λ this, mkRun (Returned tt) this [e].

Definition console (lvl : Level) (line : LogLine) : Method unit :=
  perform (Console lvl line).

(** Reading a member of [undefined] throws a [TypeError]. *)
Definition member {A} (name : string) (o : option A) : Method A :=
  match o with
  | Some a => mret a
  | None => throw (TypeError name)
  end.

(** [for (const x of l) body(x)] *)
Fixpoint forOf {A} (l : list A) (body : A → Method unit) : Method unit :=
  match l with
  | [] => mret tt
  | x :: l' => body x;; forOf l' body
  end.

(** The same loop for a body that pushes onto a local [events] array. *)
Fixpoint collect {A B} (l : list A) (body : A → Method (list B)) : Method (list B) :=
  match l with
  | [] => mret []
  | x :: l' => pushed ← body x; rest ← collect l' body; mret (pushed ++ rest)
  end.

(** The events a run handed to [emitEvent], in order. *)
Definition emitted (es : list Effect) : list MonitorEvent :=
  omap (λ e, match e with Console _ (EmitLine ev) => Some ev | _ => None end) es.

(** The HTTP deliveries a run attempted. *)
Definition posted (es : list Effect) : list MonitorEvent :=
  omap (λ e, match e with HttpPost _ ev _ => Some ev | _ => None end) es.

(** The status requests a run issued: URL and bearer key. *)
Definition requested (es : list Effect) : list (string * string) :=
  omap (λ e, match e with HttpGet url bearer => Some (url, bearer) | _ => None end) es.

(** Unfold the monad's operations and run them. *)
Ltac run_method :=
  unfold mbind, mret, Method_bind, Method_ret, gets, modify, console, perform,
    member, throw, catch in *;
  cbn in *.

(* ================================================================== *)
(** * Comparisons on JavaScript numbers *)
(* ================================================================== *)

Definition Qgeb (x y : Q) : bool := Qle_bool y x.
Definition Qltb (x y : Q) : bool := negb (Qle_bool y x).
Definition Qgtb (x y : Q) : bool := Qltb y x.

(** [!suppressedUntil || now > suppressedUntil] *)
Definition notSuppressed (now : Z) (suppressedUntil : option Z) : bool :=
  match suppressedUntil with
  | None => true
  | Some u => u <? now
  end.

(* ================================================================== *)
(** * HealthMonitorService *)
(* ================================================================== *)

Section Sweep.

Variable w : World.

(** ** Check functions

    Each object literal that a check pushes or returns is named, so that
    the properties below can refer to it. *)

(** The [INSTANCE_DEGRADED] literal of [checkInstanceHealth]. *)
Definition degradedEvent (suppressionMs : Z) (fleet : FleetStatusResult) : MonitorEvent :=
  let now := clock w in {|
    eventId := {| stamp := clock w; suffix := "degraded" |};
    type := INSTANCE_DEGRADED;
    priority := if 10 <? degradedInstances fleet then high else medium;
    timestamp := now;
    targetAgent := guardian;
    payload := DegradedPayload (degradedInstances fleet) (failedInstances fleet)
                 (byProvider fleet);
    suppressUntil := Some (now + suppressionMs) |}.

(** The [PAIR_FAILED] literal of [checkInstanceHealth]; [all] is
    [fleet.alerts]. *)
Definition failedEvent (fleet : FleetStatusResult) (all : list Alert) : MonitorEvent :=
  let now := clock w in {|
    eventId := {| stamp := clock w; suffix := "failed" |};
    type := PAIR_FAILED;
    priority := critical;
    timestamp := now;
    targetAgent := guardian;
    payload := FailedPayload (failedInstances fleet)
                 (filter (λ a, severity a = SevCritical) all);
    suppressUntil := None |}.

Definition checkInstanceHealth (fleet : FleetStatusResult) : Method (list MonitorEvent) :=
  let now := clock w in
  th ← gets thresholds;
  let suppressionMs := degradedSuppressionMins th * 60000 in
  degradedEvents ←
    (if 0 <? degradedInstances fleet then
       let key := "fleet-degraded" in
       suppressedUntil ← gets (λ this, suppressedInstances this !! key);
       if notSuppressed now suppressedUntil then
         modify (λ this,
           set_suppressedInstances
             (<[key := now + suppressionMs]> (suppressedInstances this)) this);;
         mret [degradedEvent suppressionMs fleet]
       else mret []
     else mret []);
  failedEvents ←
    (if 0 <? failedInstances fleet then
       all ← member "alerts" (alerts fleet);
       mret [failedEvent fleet all]
     else mret []);
  mret (degradedEvents ++ failedEvents).

(** The [COST_ANOMALY] literal; [c] is [fleet.cost]. *)
Definition costEvent (c : CostSummary) : MonitorEvent := {|
  eventId := {| stamp := clock w; suffix := "cost" |};
  type := COST_ANOMALY;
  priority := if Qgtb (Qabs (deviationPct c)) 25 then high else medium;
  timestamp := clock w;
  targetAgent := ledger;
  payload := CostPayload (monthlyActualUsd c) (monthlyProjectedUsd c)
               (deviationPct c)
               (if Qgtb (deviationPct c) 0 then "over" else "under");
  suppressUntil := None |}.

Definition checkCostAnomaly (fleet : FleetStatusResult) : Method (option MonitorEvent) :=
  c ← member "cost" (cost fleet);
  th ← gets thresholds;
  if Qgeb (Qabs (deviationPct c)) (costAnomalyPct th) then mret (Some (costEvent c))
  else mret None.

(** The [PROVISION_QUEUE_BACKLOG] literal. *)
Definition queueEvent (fleet : FleetStatusResult) : MonitorEvent :=
  let queueDepth := bootstrappingInstances fleet in {|
    eventId := {| stamp := clock w; suffix := "queue" |};
    type := PROVISION_QUEUE_BACKLOG;
    priority := if 50 <? queueDepth then high else medium;
    timestamp := clock w;
    targetAgent := forge;
    payload := QueuePayload queueDepth (bootstrappingInstances fleet);
    suppressUntil := None |}.

Definition checkProvisionQueue (fleet : FleetStatusResult) : Method (option MonitorEvent) :=
  let queueDepth := bootstrappingInstances fleet in
  th ← gets thresholds;
  if provisionQueueDepth th <=? queueDepth then mret (Some (queueEvent fleet))
  else mret None.

(** The [PROVIDER_DEGRADED] literal. *)
Definition providerEvent (provider : string) (summary : ProviderSummary) : MonitorEvent :=
  let now := clock w in
  let suppressionMs := 60 * 60000 in {|
    eventId := {| stamp := clock w; suffix := "provider-" +:+ provider |};
    type := PROVIDER_DEGRADED;
    priority := if Qltb (healthScore summary) 50 then critical else high;
    timestamp := now;
    targetAgent := commander;
    payload := ProviderPayload provider (healthScore summary)
                 (active summary) (degraded summary);
    suppressUntil := Some (now + suppressionMs) |}.

(** The body of the [for (const [provider, summary] of ...)] loop of
    [checkProviderHealth]. *)
Definition providerEntry (entry : string * ProviderSummary) : Method (list MonitorEvent) :=
  let '(provider, summary) := entry in
  let now := clock w in
  let suppressionMs := 60 * 60000 in
  th ← gets thresholds;
  if Qltb (healthScore summary) (providerDegradedScore th) then
    suppressedUntil ← gets (λ this, suppressedProviders this !! provider);
    if notSuppressed now suppressedUntil then
      modify (λ this,
        set_suppressedProviders
          (<[provider := now + suppressionMs]> (suppressedProviders this)) this);;
      mret [providerEvent provider summary]
    else mret []
  else
    modify (λ this,
      set_suppressedProviders (delete provider (suppressedProviders this)) this);;
    mret [].

Definition checkProviderHealth (fleet : FleetStatusResult) : Method (list MonitorEvent) :=
  entries ← member "byProvider" (byProvider fleet);
  collect entries providerEntry.

(** The [FLEET_RECOVERING] literal; [previous] is [this.lastKnownState]. *)
Definition recoveryEvent (previous : FleetStatusResult) : MonitorEvent := {|
  eventId := {| stamp := clock w; suffix := "recovery" |};
  type := FLEET_RECOVERING;
  priority := low;
  timestamp := clock w;
  targetAgent := commander;
  payload := RecoveryPayload (failedInstances previous) (degradedInstances previous);
  suppressUntil := None |}.

Definition checkFleetRecovery (fleet : FleetStatusResult) : Method (option MonitorEvent) :=
  last ← gets lastKnownState;
  match last with
  | Some previous =>
      if ((0 <? failedInstances previous) || (0 <? degradedInstances previous))
         && (failedInstances fleet =? 0)
         && (degradedInstances fleet =? 0)
      then mret (Some (recoveryEvent previous))
      else mret None
  | None => mret None
  end.

(** ** Event emission *)

Definition getSessionId (cfg : ClawOpsConfig) (agent : TargetAgent) : option string :=
  match agent with
  | guardian => guardianSessionId cfg
  | ledger => ledgerSessionId cfg
  | commander => commanderSessionId cfg
  | forge => None
  end.

(** [!sessionId]: [undefined] and the empty string are falsy. *)
Definition truthy (sessionId : option string) : option string :=
  match sessionId with
  | Some EmptyString => None
  | other => other
  end.

Definition emitEvent (event : MonitorEvent) : Method unit :=
  console Log (EmitLine event);;
  cfg ← gets config;
  match truthy (getSessionId cfg (targetAgent event)) with
  | None => console Warn (NoSessionId (targetAgent event))
  | Some sessionId =>
      let url := gfApiBase cfg +:+ "/_internal/sessions/" +:+ sessionId +:+ "/event" in
      catch
        (perform (HttpPost url event (gfApiKey cfg));;
         match sessionEndpoint w sessionId event with
         | Returned _ => mret tt
         | Threw e => throw e
         end)
        (λ _, mret tt)
  end.

(** ** Fleet status fetch *)

Definition fetchFleetStatus : Method FleetStatusResult :=
  cfg ← gets config;
  perform (HttpGet (gfApiBase cfg +:+ "/v1/fleet/status") (gfApiKey cfg));;
  match fleetEndpoint w with
  | Returned data => mret data
  | Threw e => throw e
  end.

(** ** Main sweep *)

(** [try { fleetStatus = await this.fetchFleetStatus() } catch (e) { ...; return }] *)
Definition attempt {A} (c : Method A) : Method (Outcome A) :=
  catch (a ← c; mret (Returned a)) (λ e, mret (Threw e)).

Definition runSweep : Method unit :=
  console Debug RunningSweep;;
  fetched ← attempt fetchFleetStatus;
  match fetched with
  | Threw e => console Error (FetchFailed e)
  | Returned fleetStatus =>
      instanceEvents ← checkInstanceHealth fleetStatus;
      costEv ← checkCostAnomaly fleetStatus;
      queueEv ← checkProvisionQueue fleetStatus;
      providerEvents ← checkProviderHealth fleetStatus;
      recoveryEv ← checkFleetRecovery fleetStatus;
      let events :=
        instanceEvents ++ option_list costEv ++ option_list queueEv
          ++ providerEvents ++ option_list recoveryEv in
      forOf events (λ event,
        catch (emitEvent event)
              (λ e, console Error (EmitFailed (type event) e)));;
      modify (set_lastKnownState (Some fleetStatus));;
      console Debug (SweepComplete (length events))
  end.

(** ** Scheduler *)

Definition start : Method unit :=
  isRunning ← gets running;
  if isRunning : bool then console Warn AlreadyRunning
  else
    modify (set_running true);;
    cfg ← gets config;
    let intervalMs := default 300000 (healthPollIntervalMs cfg) in
    console Log (Starting intervalMs);;
    catch runSweep (λ e, console Error (InitialSweepFailed e));;
    modify (set_pollTimer (Some intervalMs)).

(** The callback armed by [setInterval]. *)
Definition tick : Method unit :=
  isRunning ← gets running;
  if negb isRunning then mret tt
  else catch runSweep (λ e, console Error (SweepFailed e)).

Definition stop : Method unit :=
  modify (set_running false);;
  timer ← gets pollTimer;
  (if timer is Some _ then modify (set_pollTimer None) else mret tt);;
  console Log Stopped.

(** ** Status / diagnostics *)

Definition getSuppressedCount (this : HealthMonitorService) : nat :=
  let live (m : gmap string Z) :=
    length (filter (λ kd, clock w < kd.2) (map_to_list m)) in
  (live (suppressedInstances this) + live (suppressedProviders this))%nat.

End Sweep.

(** The sweeps of a started monitor, one per firing of the interval
    timer; [ws] lists what each firing finds outside. *)
Definition ticks (ws : list World) : Method unit := forOf ws tick.

(* ================================================================== *)
(** * A functional reading of one sweep

    The values the methods compute, written as functions of the service
    object and the snapshot.  The equations that tie them to the methods
    are proved below ([checkInstanceHealth_eq] to [runSweep_eq]). *)
(* ================================================================== *)

Section Reading.

Variable w : World.

Definition window (this : HealthMonitorService) : Z :=
  degradedSuppressionMins (thresholds this) * 60000.

Definition degradedDue (this : HealthMonitorService) (fleet : FleetStatusResult) : bool :=
  (0 <? degradedInstances fleet)
  && notSuppressed (clock w) (suppressedInstances this !! "fleet-degraded").

Definition afterInstanceCheck (this : HealthMonitorService) (fleet : FleetStatusResult) :=
  if degradedDue this fleet then
    set_suppressedInstances
      (<["fleet-degraded" := clock w + window this]> (suppressedInstances this)) this
  else this.

Definition degradedPart (this : HealthMonitorService) (fleet : FleetStatusResult) :=
  if degradedDue this fleet then [degradedEvent w (window this) fleet] else [].

Definition failedPart (fleet : FleetStatusResult) : Outcome (list MonitorEvent) :=
  if 0 <? failedInstances fleet then
    match alerts fleet with
    | Some all => Returned [failedEvent w fleet all]
    | None => Threw (TypeError "alerts")
    end
  else Returned [].

Definition failedEvents (fleet : FleetStatusResult) (all : list Alert) :=
  if 0 <? failedInstances fleet then [failedEvent w fleet all] else [].

Definition costPart (th : MonitorThresholds) (c : CostSummary) : option MonitorEvent :=
  if Qgeb (Qabs (deviationPct c)) (costAnomalyPct th)
  then Some (costEvent w c) else None.

Definition queuePart (th : MonitorThresholds) (fleet : FleetStatusResult) :=
  if provisionQueueDepth th <=? bootstrappingInstances fleet
  then Some (queueEvent w fleet) else None.

Definition recoveryPart (last : option FleetStatusResult) (fleet : FleetStatusResult) :=
  match last with
  | Some previous =>
      if ((0 <? failedInstances previous) || (0 <? degradedInstances previous))
         && (failedInstances fleet =? 0) && (degradedInstances fleet =? 0)
      then Some (recoveryEvent w previous) else None
  | None => None
  end.

(** The provider loop, as a fold over the entries. *)

Definition entryLedger (th : MonitorThresholds) (L : gmap string Z)
    (entry : string * ProviderSummary) : gmap string Z :=
  if Qltb (healthScore entry.2) (providerDegradedScore th) then
    if notSuppressed (clock w) (L !! entry.1)
    then <[entry.1 := clock w + 60 * 60000]> L else L
  else delete entry.1 L.

Definition entryPart (th : MonitorThresholds) (L : gmap string Z)
    (entry : string * ProviderSummary) : list MonitorEvent :=
  if Qltb (healthScore entry.2) (providerDegradedScore th)
     && notSuppressed (clock w) (L !! entry.1)
  then [providerEvent w entry.1 entry.2] else [].

Fixpoint providersPart (th : MonitorThresholds) (L : gmap string Z)
    (entries : list (string * ProviderSummary)) : list MonitorEvent :=
  match entries with
  | [] => []
  | entry :: rest => entryPart th L entry ++ providersPart th (entryLedger th L entry) rest
  end.

Definition providersLedger (th : MonitorThresholds) (L : gmap string Z)
    (entries : list (string * ProviderSummary)) : gmap string Z :=
  foldl (entryLedger th) L entries.

(** What the loop body leaves under a provider's own key. *)
Definition entryOutcome (th : MonitorThresholds) (before : option Z)
    (summary : ProviderSummary) : option Z :=
  if Qltb (healthScore summary) (providerDegradedScore th) then
    if notSuppressed (clock w) before then Some (clock w + 60 * 60000) else before
  else None.

Definition emitEffects (cfg : ClawOpsConfig) (event : MonitorEvent) : list Effect :=
  Console Log (EmitLine event) ::
  match truthy (getSessionId cfg (targetAgent event)) with
  | None => [Console Warn (NoSessionId (targetAgent event))]
  | Some sessionId =>
      [HttpPost (gfApiBase cfg +:+ "/_internal/sessions/" +:+ sessionId +:+ "/event")
         event (gfApiKey cfg)]
  end.

Definition sweepPrefix (this : HealthMonitorService) : list Effect :=
  [ Console Debug RunningSweep;
    HttpGet (gfApiBase (config this) +:+ "/v1/fleet/status") (gfApiKey (config this)) ].

Definition sweepEvents (this : HealthMonitorService) (fleet : FleetStatusResult)
    (failed : list MonitorEvent) (c : CostSummary)
    (entries : list (string * ProviderSummary)) : list MonitorEvent :=
  (degradedPart this fleet ++ failed)
  ++ option_list (costPart (thresholds this) c)
  ++ option_list (queuePart (thresholds this) fleet)
  ++ providersPart (thresholds this) (suppressedProviders this) entries
  ++ option_list (recoveryPart (lastKnownState this) fleet).

Definition sweepSelf (this : HealthMonitorService) (fleet : FleetStatusResult)
    (entries : list (string * ProviderSummary)) : HealthMonitorService :=
  set_lastKnownState (Some fleet)
    (set_suppressedProviders
       (providersLedger (thresholds this) (suppressedProviders this) entries)
       (afterInstanceCheck this fleet)).

End Reading.

(* ================================================================== *)
(** * Observations on a sweep *)
(* ================================================================== *)

(** The events one sweep hands to the dispatcher. *)
Definition produced (w : World) (this : HealthMonitorService) : list MonitorEvent :=
  emitted (effects (runSweep w this)).

Definition ofType (T : MonitorEventType) (events : list MonitorEvent) :=
  filter (λ e, type e = T) events.

Definition payloadProvider (e : MonitorEvent) : option string :=
  match payload e with
  | ProviderPayload provider _ _ _ => Some provider
  | _ => None
  end.

(** The [PROVIDER_DEGRADED] events about one provider. *)
Definition forProvider (p : string) (events : list MonitorEvent) :=
  filter (λ e, type e = PROVIDER_DEGRADED ∧ payloadProvider e = Some p) events.

(** The routing table of the module's header comment ("event emission
    map"), with [FLEET_RECOVERING] routed like [PROVIDER_DEGRADED]. *)
Definition routeOf (T : MonitorEventType) : option TargetAgent :=
  match T with
  | INSTANCE_DEGRADED | PAIR_FAILED => Some guardian
  | COST_ANOMALY => Some ledger
  | PROVISION_QUEUE_BACKLOG => Some forge
  | PROVIDER_DEGRADED | FLEET_RECOVERING => Some commander
  | INSTANCE_FAILED | FLEET_HEALTHY => None
  end.

Definition routed (e : MonitorEvent) : Prop := routeOf (type e) = Some (targetAgent e).

(** The transition that [checkFleetRecovery] reports. *)
Definition recoveryEdge (last : option FleetStatusResult) (fleet : FleetStatusResult) : Prop :=
  ∃ previous, last = Some previous
    ∧ (0 < failedInstances previous ∨ 0 < degradedInstances previous)
    ∧ failedInstances fleet = 0 ∧ degradedInstances fleet = 0.

(** A world whose fleet endpoint delivers a conforming snapshot in which
    provider [p] has summary [summary]. *)
Definition observes (w : World) (p : string) (summary : ProviderSummary) : Prop :=
  ∃ fleet entries,
    fleetEndpoint w = Returned fleet ∧ conforms fleet = true
    ∧ byProvider fleet = Some entries ∧ (p, summary) ∈ entries.

(* ================================================================== *)
(** * The audit trail query ([gf_audit_log])

    [execute] builds the query of [GET <gfApiBase>/v1/audit] from the
    filters it was given.  Every filter is optional and unchecked at run
    time; a filter is sent when it is truthy.  A [URLSearchParams] that is
    [set] once per key is the list of its pairs in the order of the calls.
    The values are kept as they are before [String(..)] and URL encoding. *)
(* ================================================================== *)

Module AuditLog.

Record AuditLogQueryParams := {
  accountId : option string;
  instanceId : option string;
  agent : option string;
  action : option string;
  from : option string;
  to : option string;
  limit : option Q;
  outcome : option string;
}.

(** [{}], what [params ?? {}] falls back to. *)
Definition noFilters : AuditLogQueryParams :=
  {| accountId := None; instanceId := None; agent := None; action := None;
     from := None; to := None; limit := None; outcome := None |}.

Inductive QueryValue :=
  | Text (s : string)
  | Number (n : Q).

(** [if (v) queryParams.set(key, v)] *)
Definition setText (key : string) (v : option string) : list (string * QueryValue) :=
  match truthy v with
  | Some s => [(key, Text s)]
  | None => []
  end.

(** [Math.min(a, b)] *)
Definition min (a b : Q) : Q := if Qle_bool a b then a else b.

(** [if (p.limit) queryParams.set('limit', String(Math.min(p.limit, 500)))] *)
Definition setLimit (v : option Q) : list (string * QueryValue) :=
  match v with
  | Some l => if Qeq_bool l 0 then [] else [("limit", Number (min l 500))]
  | None => []
  end.

(** [if (p.outcome && p.outcome !== 'all') queryParams.set('outcome', p.outcome)] *)
Definition setOutcome (v : option string) : list (string * QueryValue) :=
  match truthy v with
  | Some s => if bool_decide (s = "all") then [] else [("outcome", Text s)]
  | None => []
  end.

Definition queryParams (params : option AuditLogQueryParams)
  : list (string * QueryValue) :=
  let p := default noFilters params in
  setText "account_id" (accountId p)
  ++ setText "instance_id" (instanceId p)
  ++ setText "agent" (agent p)
  ++ setText "action" (action p)
  ++ setText "from" (from p)
  ++ setText "to" (to p)
  ++ setLimit (limit p)
  ++ setOutcome (outcome p).

(** The keys [execute] may set, in the order of its statements. *)
Definition keys : list string :=
  ["account_id"; "instance_id"; "agent"; "action"; "from"; "to"; "limit"; "outcome"].

End AuditLog.

(* ================================================================== *)
(** * Sample data *)
(* ================================================================== *)

Module Sample.

Definition cfg : ClawOpsConfig := {|
  gfApiBase := "https://gf.example";
  gfApiKey := "key";
  healthPollIntervalMs := None;
  guardianSessionId := Some "guardian-1";
  ledgerSessionId := Some "ledger-1";
  commanderSessionId := Some "commander-1";
|}.

(** A freshly constructed monitor with the default thresholds. *)
Definition monitor : HealthMonitorService := newHealthMonitorService cfg None.

Definition started : HealthMonitorService := set_running true monitor.

Definition hetzner (score : Q) : ProviderSummary := {|
  total := 40; active := 38; degraded := 2; failed := 0;
  healthScore := score; avgProvisionTimeSecs := 95; monthlyCostUsd := 410;
|}.

Definition costs (deviation : Q) : CostSummary := {|
  monthlyActualUsd := 1160; monthlyProjectedUsd := 1000;
  deviationPct := deviation; weeklyActualUsd := 290; perActiveAccountUsd := 12;
|}.

Definition someAlerts : list Alert := [
  {| severity := SevCritical; instanceId := Some "i-7"; message := "pair down" |};
  {| severity := SevWarning; instanceId := None; message := "slow heartbeat" |}
].

(** A conforming snapshot with the given degraded and failed counts,
    queue depth, Hetzner health score and cost deviation. *)
Definition snapshot (degradedN failedN queue : Z) (score deviation : Q)
    : FleetStatusResult := {|
  snapshotId := "snap";
  capturedAt := "2024-01-15T00:00:00Z";
  totalInstances := 80;
  activePairs := 38;
  degradedInstances := degradedN;
  failedInstances := failedN;
  bootstrappingInstances := queue;
  unpaired := 0;
  byProvider := Some [("hetzner", hetzner score); ("vultr", hetzner 90)];
  cost := Some (costs deviation);
  alerts := Some someAlerts;
|}.

(** The same snapshot as the endpoint sends it without its [cost] member. *)
Definition withoutCost (fleet : FleetStatusResult) : FleetStatusResult := {|
  snapshotId := snapshotId fleet;
  capturedAt := capturedAt fleet;
  totalInstances := totalInstances fleet;
  activePairs := activePairs fleet;
  degradedInstances := degradedInstances fleet;
  failedInstances := failedInstances fleet;
  bootstrappingInstances := bootstrappingInstances fleet;
  unpaired := unpaired fleet;
  byProvider := byProvider fleet;
  cost := None;
  alerts := alerts fleet;
|}.

(** The world at clock reading [t] in which the fetch returns [fleet]
    and every delivery succeeds. *)
Definition at_ (t : Z) (fleet : FleetStatusResult) : World := {|
  clock := t;
  fleetEndpoint := Returned fleet;
  sessionEndpoint := λ _ _, Returned tt;
|}.

(** The world at clock reading [t] in which the fetch times out. *)
Definition unreachable (t : Z) : World := {|
  clock := t;
  fleetEndpoint := Threw (RequestError "timeout of 10000ms exceeded");
  sessionEndpoint := λ _ _, Returned tt;
|}.

End Sample.

(* ================================================================== *)
(** * Reasoning about methods *)
(* ================================================================== *)

Lemma bind_returned {A B} (c : Method A) (k : A → Method B) this a this' es :
  c this = mkRun (Returned a) this' es →
  (c ≫= k) this
  = mkRun (result (k a this')) (self (k a this')) (es ++ effects (k a this')).
Proof. intros H. unfold mbind, Method_bind. by rewrite H. Qed.

Lemma bind_threw {A B} (c : Method A) (k : A → Method B) this e this' es :
  c this = mkRun (Threw e) this' es →
  (c ≫= k) this = mkRun (Threw e) this' es.
Proof. intros H. unfold mbind, Method_bind. by rewrite H. Qed.

Lemma bind_silent {A B} (c : Method A) (k : A → Method B) this a this' :
  c this = mkRun (Returned a) this' [] →
  (c ≫= k) this = k a this'.
Proof. intros H. rewrite (bind_returned _ _ _ _ _ _ H). by destruct (k a this'). Qed.

Lemma set_suppressedInstances_id this :
  set_suppressedInstances (suppressedInstances this) this = this.
Proof. by destruct this. Qed.

Lemma set_suppressedProviders_id this :
  set_suppressedProviders (suppressedProviders this) this = this.
Proof. by destruct this. Qed.

(** ** Comparisons *)

Lemma Qgeb_true x y : Qgeb x y = true ↔ (y <= x)%Q.
Proof. apply Qle_bool_iff. Qed.

Lemma Qltb_true x y : Qltb x y = true ↔ (x < y)%Q.
Proof.
  unfold Qltb. rewrite negb_true_iff, <- not_true_iff_false, Qle_bool_iff.
  split; [apply Qnot_le_lt | apply Qlt_not_le].
Qed.

Lemma Qltb_false x y : Qltb x y = false ↔ (y <= x)%Q.
Proof.
  unfold Qltb. rewrite negb_false_iff. apply Qle_bool_iff.
Qed.

Lemma Qgeb_false x y : Qgeb x y = false ↔ (x < y)%Q.
Proof.
  unfold Qgeb. rewrite <- not_true_iff_false, Qle_bool_iff.
  split; [apply Qnot_le_lt | apply Qlt_not_le].
Qed.

Lemma notSuppressed_live now u : now ≤ u → notSuppressed now (Some u) = false.
Proof. intros. unfold notSuppressed. by apply Z.ltb_ge. Qed.

Lemma notSuppressed_expired now u : u < now → notSuppressed now (Some u) = true.
Proof. intros. unfold notSuppressed. by apply Z.ltb_lt. Qed.

Section Equations.

Variable w : World.

(** ** The checks, as equations *)

Lemma checkInstanceHealth_eq fleet this :
  checkInstanceHealth w fleet this
  = mkRun (match failedPart w fleet with
           | Returned evs => Returned (degradedPart w this fleet ++ evs)
           | Threw e => Threw e
           end)
          (afterInstanceCheck w this fleet) [].
Proof.
  unfold checkInstanceHealth, failedPart, degradedPart, afterInstanceCheck,
    degradedDue, window.
  destruct (0 <? degradedInstances fleet), (0 <? failedInstances fleet),
    (alerts fleet); run_method;
    try destruct (notSuppressed _ _); run_method; reflexivity.
Qed.

Lemma checkCostAnomaly_eq fleet this :
  checkCostAnomaly w fleet this
  = mkRun (match cost fleet with
           | Some c => Returned (costPart w (thresholds this) c)
           | None => Threw (TypeError "cost")
           end) this [].
Proof.
  unfold checkCostAnomaly, costPart. destruct (cost fleet); run_method; [|done].
  by destruct (Qgeb _ _).
Qed.

Lemma checkProvisionQueue_eq fleet this :
  checkProvisionQueue w fleet this = mkRun (Returned (queuePart w (thresholds this) fleet)) this [].
Proof.
  unfold checkProvisionQueue, queuePart. run_method. by destruct (_ <=? _).
Qed.

Lemma checkFleetRecovery_eq fleet this :
  checkFleetRecovery w fleet this
  = mkRun (Returned (recoveryPart w (lastKnownState this) fleet)) this [].
Proof.
  unfold checkFleetRecovery, recoveryPart. run_method.
  destruct (lastKnownState this); [|done]. by destruct (_ && _).
Qed.

Lemma providerEntry_eq entry this :
  providerEntry w entry this
  = mkRun (Returned (entryPart w (thresholds this) (suppressedProviders this) entry))
          (set_suppressedProviders
             (entryLedger w (thresholds this) (suppressedProviders this) entry) this) [].
Proof.
  destruct entry as [provider summary].
  unfold providerEntry, entryPart, entryLedger. run_method.
  destruct (Qltb _ _); run_method; [destruct (notSuppressed _ _); run_method |];
    by rewrite ?set_suppressedProviders_id.
Qed.

Lemma collect_providerEntry entries this :
  collect entries (providerEntry w) this
  = mkRun (Returned (providersPart w (thresholds this) (suppressedProviders this) entries))
          (set_suppressedProviders
             (providersLedger w (thresholds this) (suppressedProviders this) entries) this) [].
Proof.
  revert this. induction entries as [|entry rest IH]; intros this.
  - cbn. by rewrite set_suppressedProviders_id.
  - cbn [collect providersPart]. rewrite (bind_silent _ _ _ _ _ (providerEntry_eq _ _)).
    rewrite (bind_silent _ _ _ _ _ (IH _)). reflexivity.
Qed.

Lemma checkProviderHealth_eq fleet this :
  checkProviderHealth w fleet this
  = match byProvider fleet with
    | Some entries =>
        mkRun (Returned (providersPart w (thresholds this) (suppressedProviders this) entries))
              (set_suppressedProviders
                 (providersLedger w (thresholds this) (suppressedProviders this) entries)
                 this) []
    | None => mkRun (Threw (TypeError "byProvider")) this []
    end.
Proof.
  unfold checkProviderHealth. destruct (byProvider fleet) as [entries|].
  - exact (eq_trans (bind_silent _ _ this entries this eq_refl) (collect_providerEntry _ _)).
  - reflexivity.
Qed.

(** ** Emission, as an equation *)

Lemma emitEvent_eq event this :
  emitEvent w event this = mkRun (Returned tt) this (emitEffects (config this) event).
Proof.
  unfold emitEvent, emitEffects. run_method.
  destruct (truthy _) as [sessionId|]; run_method; [|done].
  by destruct (sessionEndpoint w sessionId event).
Qed.

Lemma emitLoop_eq events this :
  forOf events (λ event,
    catch (emitEvent w event) (λ e, console Error (EmitFailed (type event) e))) this
  = mkRun (Returned tt) this (flat_map (emitEffects (config this)) events).
Proof.
  induction events as [|event rest IH]; [done|].
  cbn [forOf flat_map].
  assert (catch (emitEvent w event)
            (λ e, console Error (EmitFailed (type event) e)) this
          = mkRun (Returned tt) this (emitEffects (config this) event)) as Hd.
  { unfold catch. by rewrite emitEvent_eq. }
  rewrite (bind_returned _ _ _ _ _ _ Hd), IH. reflexivity.
Qed.

Lemma emitted_emitEffects cfg events :
  emitted (flat_map (emitEffects cfg) events) = events.
Proof.
  induction events as [|event rest IH]; [done|].
  cbn. unfold emitted in *. destruct (truthy _); cbn; by rewrite IH.
Qed.

Lemma posted_emitEffects cfg events :
  posted (flat_map (emitEffects cfg) events)
  = filter (λ e, is_Some (truthy (getSessionId cfg (targetAgent e)))) events.
Proof.
  induction events as [|event rest IH]; [done|].
  cbn [flat_map]. unfold posted in *. rewrite omap_app, IH, filter_cons.
  unfold emitEffects. destruct (truthy _) eqn:E; cbn.
  - rewrite decide_True; [done | by eexists].
  - rewrite decide_False; [done | by intros [? ?]].
Qed.

(** ** The sweep, as an equation *)

Lemma afterInstanceCheck_frame this fleet :
  config (afterInstanceCheck w this fleet) = config this
  ∧ thresholds (afterInstanceCheck w this fleet) = thresholds this
  ∧ running (afterInstanceCheck w this fleet) = running this
  ∧ pollTimer (afterInstanceCheck w this fleet) = pollTimer this
  ∧ suppressedProviders (afterInstanceCheck w this fleet) = suppressedProviders this
  ∧ lastKnownState (afterInstanceCheck w this fleet) = lastKnownState this.
Proof. unfold afterInstanceCheck. by destruct (degradedDue w this fleet). Qed.

Lemma fetchFleetStatus_eq this :
  attempt (fetchFleetStatus w) this
  = mkRun (Returned (fleetEndpoint w)) this
          [HttpGet (gfApiBase (config this) +:+ "/v1/fleet/status") (gfApiKey (config this))].
Proof.
  unfold attempt, fetchFleetStatus. run_method. by destruct (fleetEndpoint w).
Qed.

Lemma runSweep_eq this :
  runSweep w this
  = match fleetEndpoint w with
    | Threw e =>
        mkRun (Returned tt) this (sweepPrefix this ++ [Console Error (FetchFailed e)])
    | Returned fleet =>
        match failedPart w fleet, cost fleet, byProvider fleet with
        | Returned pushed, Some c, Some entries =>
            let events := sweepEvents w this fleet pushed c entries in
            mkRun (Returned tt) (sweepSelf w this fleet entries)
              (sweepPrefix this ++ flat_map (emitEffects (config this)) events
                 ++ [Console Debug (SweepComplete (length events))])
        | Threw e, _, _ =>
            mkRun (Threw e) (afterInstanceCheck w this fleet) (sweepPrefix this)
        | Returned _, None, _ =>
            mkRun (Threw (TypeError "cost")) (afterInstanceCheck w this fleet)
              (sweepPrefix this)
        | Returned _, Some _, None =>
            mkRun (Threw (TypeError "byProvider")) (afterInstanceCheck w this fleet)
              (sweepPrefix this)
        end
    end.
Proof.
  unfold runSweep.
  rewrite (bind_returned _ _ this tt this [Console Debug RunningSweep] eq_refl).
  rewrite (bind_returned _ _ _ _ _ _ (fetchFleetStatus_eq this)).
  destruct (fleetEndpoint w) as [fleet|e]; [|done].
  destruct (afterInstanceCheck_frame this fleet) as (Hc & Ht & _ & _ & Hp & Hl).
  destruct (failedPart w fleet) as [pushed|e] eqn:Hf.
  2:{ rewrite (bind_threw _ _ _ e (afterInstanceCheck w this fleet) []); [done|].
      by rewrite checkInstanceHealth_eq, Hf. }
  rewrite (bind_silent _ _ _ (degradedPart w this fleet ++ pushed)
             (afterInstanceCheck w this fleet));
    [|by rewrite checkInstanceHealth_eq, Hf].
  destruct (cost fleet) as [c|] eqn:Hcost.
  2:{ rewrite (bind_threw _ _ _ (TypeError "cost") (afterInstanceCheck w this fleet) []).
      - by destruct (byProvider fleet).
      - by rewrite checkCostAnomaly_eq, Hcost. }
  rewrite (bind_silent _ _ _ (costPart w (thresholds this) c)
             (afterInstanceCheck w this fleet));
    [|by rewrite checkCostAnomaly_eq, Hcost, Ht].
  rewrite (bind_silent _ _ _ (queuePart w (thresholds this) fleet)
             (afterInstanceCheck w this fleet));
    [|by rewrite checkProvisionQueue_eq, Ht].
  destruct (byProvider fleet) as [entries|] eqn:Hprov.
  2:{ rewrite (bind_threw _ _ _ (TypeError "byProvider")
                 (afterInstanceCheck w this fleet) []); [done|].
      by rewrite checkProviderHealth_eq, Hprov. }
  rewrite (bind_silent _ _ _
             (providersPart w (thresholds this) (suppressedProviders this) entries)
             (set_suppressedProviders
                (providersLedger w (thresholds this) (suppressedProviders this) entries)
                (afterInstanceCheck w this fleet)));
    [|by rewrite checkProviderHealth_eq, Hprov, Ht, Hp].
  rewrite (bind_silent _ _ _ (recoveryPart w (lastKnownState this) fleet)
             (set_suppressedProviders
                (providersLedger w (thresholds this) (suppressedProviders this) entries)
                (afterInstanceCheck w this fleet)));
    [|rewrite checkFleetRecovery_eq; cbn; by rewrite Hl].
  fold (sweepEvents w this fleet pushed c entries).
  erewrite bind_returned; [|apply emitLoop_eq].
  cbn. rewrite Hc. unfold sweepSelf. run_method. reflexivity.
Qed.

End Equations.


(* ================================================================== *)
(** * Events of a sweep, by type and by provider *)
(* ================================================================== *)

Lemma ofType_app T l1 l2 : ofType T (l1 ++ l2) = ofType T l1 ++ ofType T l2.
Proof. apply filter_app. Qed.

Lemma ofType_all T l : Forall (λ e, type e = T) l → ofType T l = l.
Proof.
  induction 1 as [|e l He _ IH]; [done|].
  unfold ofType in *. rewrite filter_cons, decide_True by done. by rewrite IH.
Qed.

Lemma ofType_none T T' l : T' ≠ T → Forall (λ e, type e = T') l → ofType T l = [].
Proof.
  intros Hne. induction 1 as [|e l He _ IH]; [done|].
  unfold ofType in *. rewrite filter_cons, decide_False by congruence. apply IH.
Qed.

Lemma forProvider_app p l1 l2 :
  forProvider p (l1 ++ l2) = forProvider p l1 ++ forProvider p l2.
Proof. apply filter_app. Qed.

Lemma forProvider_none p T l :
  T ≠ PROVIDER_DEGRADED → Forall (λ e, type e = T) l → forProvider p l = [].
Proof.
  intros Hne. induction 1 as [|e l He _ IH]; [done|].
  unfold forProvider in *. rewrite filter_cons, decide_False; [apply IH|].
  intros [? _]. congruence.
Qed.

Section Parts.

Variable w : World.

Lemma degradedPart_type this fleet :
  Forall (λ e, type e = INSTANCE_DEGRADED) (degradedPart w this fleet).
Proof. unfold degradedPart. destruct (degradedDue _ _ _); by repeat constructor. Qed.

Lemma failedPart_type fleet events :
  failedPart w fleet = Returned events → Forall (λ e, type e = PAIR_FAILED) events.
Proof.
  unfold failedPart. intros H.
  destruct (0 <? _); [destruct (alerts fleet)|]; simplify_eq; by repeat constructor.
Qed.

Lemma costPart_type th c :
  Forall (λ e, type e = COST_ANOMALY) (option_list (costPart w th c)).
Proof. unfold costPart. destruct (Qgeb _ _); by repeat constructor. Qed.

Lemma queuePart_type th fleet :
  Forall (λ e, type e = PROVISION_QUEUE_BACKLOG) (option_list (queuePart w th fleet)).
Proof. unfold queuePart. destruct (_ <=? _); by repeat constructor. Qed.

Lemma providersPart_type th L entries :
  Forall (λ e, type e = PROVIDER_DEGRADED) (providersPart w th L entries).
Proof.
  revert L. induction entries as [|entry rest IH]; intros L; [constructor|].
  cbn. apply Forall_app. split; [|apply IH].
  unfold entryPart. destruct (_ && _); by repeat constructor.
Qed.

Lemma recoveryPart_type last fleet :
  Forall (λ e, type e = FLEET_RECOVERING) (option_list (recoveryPart w last fleet)).
Proof.
  unfold recoveryPart. destruct last; [destruct (_ && _)|]; by repeat constructor.
Qed.

(** Splitting the events of a sweep by type. *)
Lemma ofType_sweepEvents T this fleet pushed c entries :
  failedPart w fleet = Returned pushed →
  ofType T (sweepEvents w this fleet pushed c entries)
  = match T with
    | INSTANCE_DEGRADED => degradedPart w this fleet
    | PAIR_FAILED => pushed
    | COST_ANOMALY => option_list (costPart w (thresholds this) c)
    | PROVISION_QUEUE_BACKLOG => option_list (queuePart w (thresholds this) fleet)
    | PROVIDER_DEGRADED => providersPart w (thresholds this) (suppressedProviders this) entries
    | FLEET_RECOVERING => option_list (recoveryPart w (lastKnownState this) fleet)
    | INSTANCE_FAILED | FLEET_HEALTHY => []
    end.
Proof.
  intros Hf. unfold sweepEvents. rewrite !ofType_app.
  pose proof (degradedPart_type this fleet) as H1.
  pose proof (failedPart_type _ _ Hf) as H2.
  pose proof (costPart_type (thresholds this) c) as H3.
  pose proof (queuePart_type (thresholds this) fleet) as H4.
  pose proof (providersPart_type (thresholds this) (suppressedProviders this) entries) as H5.
  pose proof (recoveryPart_type (lastKnownState this) fleet) as H6.
  destruct T;
    repeat match goal with
    | H : Forall (λ e, type e = ?T') ?l |- context [ofType ?T ?l] =>
        first [ rewrite (ofType_all T l H)
              | rewrite (λ Hne, ofType_none T T' l Hne H) by discriminate ];
        clear H
    end.
  all: by rewrite ?app_nil_r.
Qed.

Lemma forProvider_sweepEvents p this fleet pushed c entries :
  failedPart w fleet = Returned pushed →
  forProvider p (sweepEvents w this fleet pushed c entries)
  = forProvider p (providersPart w (thresholds this) (suppressedProviders this) entries).
Proof.
  intros Hf. unfold sweepEvents. rewrite !forProvider_app.
  rewrite (λ Hne, forProvider_none p _ _ Hne (degradedPart_type this fleet)) by discriminate.
  rewrite (λ Hne, forProvider_none p _ _ Hne (failedPart_type _ _ Hf)) by discriminate.
  rewrite (λ Hne, forProvider_none p _ _ Hne (costPart_type _ c)) by discriminate.
  rewrite (λ Hne, forProvider_none p _ _ Hne (queuePart_type _ fleet)) by discriminate.
  rewrite (λ Hne, forProvider_none p _ _ Hne (recoveryPart_type _ fleet)) by discriminate.
  cbn. apply app_nil_r.
Qed.

(** ** One provider within the loop *)

Lemma entryLedger_own th L p summary :
  entryLedger w th L (p, summary) !! p = entryOutcome w th (L !! p) summary.
Proof.
  unfold entryLedger, entryOutcome. cbn.
  destruct (Qltb _ _); [destruct (notSuppressed _ _)|];
    by rewrite ?lookup_insert_eq, ?lookup_delete_eq.
Qed.

Lemma entryLedger_other th L entry p :
  entry.1 ≠ p → entryLedger w th L entry !! p = L !! p.
Proof.
  intros Hne. unfold entryLedger.
  destruct (Qltb _ _); [destruct (notSuppressed _ _)|];
    by rewrite ?lookup_insert_ne, ?lookup_delete_ne.
Qed.

Lemma providersLedger_absent th L entries p :
  p ∉ (entries.*1) → providersLedger w th L entries !! p = L !! p.
Proof.
  revert L. induction entries as [|entry rest IH]; intros L Hp; [done|].
  rewrite fmap_cons in Hp. apply not_elem_of_cons in Hp as [Hne Hp].
  unfold providersLedger in *. cbn [foldl]. rewrite IH by done.
  by apply entryLedger_other.
Qed.

Lemma distinctKeys_cons {A} (k : string) (a : A) l :
  distinctKeys ((k, a) :: l) = true ↔ (k ∉ l.*1) ∧ distinctKeys l = true.
Proof.
  cbn. rewrite andb_true_iff, negb_true_iff, bool_decide_eq_false. done.
Qed.

Lemma providersLedger_own th L entries p summary :
  distinctKeys entries = true → (p, summary) ∈ entries →
  providersLedger w th L entries !! p = entryOutcome w th (L !! p) summary.
Proof.
  revert L. induction entries as [|[q sq] rest IH]; intros L Hd Hin.
  - by apply elem_of_nil in Hin.
  - apply distinctKeys_cons in Hd as [Hq Hd].
    unfold providersLedger in *. cbn [foldl].
    apply elem_of_cons in Hin as [Heq|Hin].
    + simplify_eq. fold (providersLedger w th (entryLedger w th L (q, sq)) rest).
      rewrite providersLedger_absent by done. apply entryLedger_own.
    + assert (q ≠ p) as Hne.
      { intros ->. apply Hq. apply list_elem_of_fmap. by exists (p, summary). }
      rewrite IH by done. by rewrite entryLedger_other.
Qed.

Lemma forProvider_entryPart_own th L p summary :
  forProvider p (entryPart w th L (p, summary)) = entryPart w th L (p, summary).
Proof.
  unfold entryPart. destruct (_ && _); [|done].
  unfold forProvider. rewrite filter_cons, decide_True; done.
Qed.

Lemma forProvider_entryPart_other th L entry p :
  entry.1 ≠ p → forProvider p (entryPart w th L entry) = [].
Proof.
  intros Hne. unfold entryPart. destruct (_ && _); [|done].
  unfold forProvider. rewrite filter_cons, decide_False; [done|].
  intros [_ H]. cbn in H. congruence.
Qed.

Lemma providersPart_absent th L entries p :
  p ∉ (entries.*1) → forProvider p (providersPart w th L entries) = [].
Proof.
  revert L. induction entries as [|entry rest IH]; intros L Hp; [done|].
  rewrite fmap_cons in Hp. apply not_elem_of_cons in Hp as [Hne Hp].
  cbn [providersPart]. rewrite forProvider_app, IH by done.
  by rewrite forProvider_entryPart_other.
Qed.

Lemma entryPart_agree th L L' p summary :
  L !! p = L' !! p → entryPart w th L (p, summary) = entryPart w th L' (p, summary).
Proof. unfold entryPart. cbn. by intros ->. Qed.

Lemma providersPart_own th L entries p summary :
  distinctKeys entries = true → (p, summary) ∈ entries →
  forProvider p (providersPart w th L entries) = entryPart w th L (p, summary).
Proof.
  revert L. induction entries as [|[q sq] rest IH]; intros L Hd Hin.
  - by apply elem_of_nil in Hin.
  - apply distinctKeys_cons in Hd as [Hq Hd].
    cbn [providersPart]. rewrite forProvider_app.
    apply elem_of_cons in Hin as [Heq|Hin].
    + simplify_eq. rewrite providersPart_absent by done.
      by rewrite forProvider_entryPart_own, app_nil_r.
    + assert (q ≠ p) as Hne.
      { intros ->. apply Hq. apply list_elem_of_fmap. by exists (p, summary). }
      rewrite forProvider_entryPart_other by done. rewrite IH by done.
      apply entryPart_agree. by rewrite entryLedger_other.
Qed.

End Parts.


(* ================================================================== *)
(** * Sweeps over conforming snapshots *)
(* ================================================================== *)

Lemma conforms_inv fleet :
  conforms fleet = true →
  ∃ entries c all,
    byProvider fleet = Some entries ∧ cost fleet = Some c ∧ alerts fleet = Some all
    ∧ distinctKeys entries = true.
Proof.
  unfold conforms. destruct (byProvider fleet), (cost fleet), (alerts fleet); try done.
  intros. by eexists _, _, _.
Qed.

Lemma failedPart_conforming w fleet all :
  alerts fleet = Some all → failedPart w fleet = Returned (failedEvents w fleet all).
Proof. unfold failedPart, failedEvents. intros ->. by destruct (0 <? _). Qed.

Lemma emitted_sweep this cfg events n :
  emitted (sweepPrefix this ++ flat_map (emitEffects cfg) events
             ++ [Console Debug (SweepComplete n)]) = events.
Proof.
  unfold emitted. rewrite !omap_app. cbn. rewrite app_nil_r.
  apply emitted_emitEffects.
Qed.

Lemma runSweep_conforming w this fleet entries c all :
  fleetEndpoint w = Returned fleet →
  byProvider fleet = Some entries → cost fleet = Some c → alerts fleet = Some all →
  result (runSweep w this) = Returned tt
  ∧ self (runSweep w this) = sweepSelf w this fleet entries
  ∧ produced w this = sweepEvents w this fleet (failedEvents w fleet all) c entries.
Proof.
  intros Hw Hp Hc Ha. unfold produced. rewrite runSweep_eq, Hw.
  rewrite (failedPart_conforming _ _ _ Ha), Hc, Hp. cbn [result self effects].
  by rewrite emitted_sweep.
Qed.

Lemma sweepSelf_frame w this fleet entries :
  config (sweepSelf w this fleet entries) = config this
  ∧ thresholds (sweepSelf w this fleet entries) = thresholds this
  ∧ running (sweepSelf w this fleet entries) = running this
  ∧ pollTimer (sweepSelf w this fleet entries) = pollTimer this
  ∧ suppressedInstances (sweepSelf w this fleet entries)
    = suppressedInstances (afterInstanceCheck w this fleet)
  ∧ suppressedProviders (sweepSelf w this fleet entries)
    = providersLedger w (thresholds this) (suppressedProviders this) entries
  ∧ lastKnownState (sweepSelf w this fleet entries) = Some fleet.
Proof.
  unfold sweepSelf. cbn.
  by destruct (afterInstanceCheck_frame w this fleet) as (-> & -> & -> & -> & _ & _).
Qed.

(** C3.  Non-suppression of failures.  For every conforming snapshot and
    every state of the monitor (in particular every suppression ledger):
    if [failedInstances > 0], the sweep produces exactly one [PAIR_FAILED]
    event, at priority [critical], addressed to guardian, carrying the
    failed count and the alerts of severity [critical]; and if
    [degradedInstances = 0] and [failedInstances = 0], it produces no
    [INSTANCE_DEGRADED] and no [PAIR_FAILED] event. *)
Theorem pair_failed_is_never_suppressed w this fleet all :
  fleetEndpoint w = Returned fleet → conforms fleet = true →
  alerts fleet = Some all →
  (0 < failedInstances fleet →
     ∃ e, ofType PAIR_FAILED (produced w this) = [e]
          ∧ priority e = critical
          ∧ targetAgent e = guardian
          ∧ payload e = FailedPayload (failedInstances fleet)
                          (filter (λ a, severity a = SevCritical) all)
          ∧ suppressUntil e = None)
  ∧ (degradedInstances fleet = 0 → failedInstances fleet = 0 →
     ofType INSTANCE_DEGRADED (produced w this) = []
     ∧ ofType PAIR_FAILED (produced w this) = []).
Proof.
  intros Hw Hconf Ha.
  destruct (conforms_inv _ Hconf) as (entries & c & all' & Hp & Hc & Ha' & _).
  destruct (runSweep_conforming w this _ _ _ _ Hw Hp Hc Ha) as (_ & _ & ->).
  pose proof (failedPart_conforming w _ _ Ha) as Hf.
  rewrite !(ofType_sweepEvents _ _ _ _ _ _ _ Hf).
  split.
  - intros Hpos. exists (failedEvent w fleet all). unfold failedEvents.
    by rewrite (proj2 (Z.ltb_lt _ _) Hpos).
  - intros Hd0 Hf0. unfold failedEvents, degradedPart, degradedDue.
    by rewrite Hd0, Hf0.
Qed.

Lemma pair_failed_is_never_suppressed_witness :
  (∃ e, ofType PAIR_FAILED
          (produced (Sample.at_ 1000 (Sample.snapshot 3 2 0 80 0)) Sample.monitor) = [e]
        ∧ priority e = critical
        ∧ targetAgent e = guardian
        ∧ payload e = FailedPayload 2
            [ {| severity := SevCritical; instanceId := Some "i-7";
                 message := "pair down" |} ]
        ∧ suppressUntil e = None)
  ∧ ofType INSTANCE_DEGRADED
      (produced (Sample.at_ 1000 (Sample.snapshot 0 0 0 80 0)) Sample.monitor) = []
  ∧ ofType PAIR_FAILED
      (produced (Sample.at_ 1000 (Sample.snapshot 0 0 0 80 0)) Sample.monitor) = [].
Proof.
  split.
  - apply (pair_failed_is_never_suppressed
             (Sample.at_ 1000 (Sample.snapshot 3 2 0 80 0)) Sample.monitor
             (Sample.snapshot 3 2 0 80 0) Sample.someAlerts);
      reflexivity.
  - apply (pair_failed_is_never_suppressed
             (Sample.at_ 1000 (Sample.snapshot 0 0 0 80 0)) Sample.monitor
             (Sample.snapshot 0 0 0 80 0) Sample.someAlerts);
      reflexivity.
Defined.

Lemma recoveryPart_edge w last fleet previous :
  last = Some previous →
  (0 < failedInstances previous ∨ 0 < degradedInstances previous) →
  failedInstances fleet = 0 → degradedInstances fleet = 0 →
  recoveryPart w last fleet = Some (recoveryEvent w previous).
Proof.
  intros -> Hprev Hf Hd. unfold recoveryPart. rewrite Hf, Hd. cbn.
  replace ((0 <? failedInstances previous) || (0 <? degradedInstances previous))
    with true; [done|].
  symmetry. apply orb_true_iff. destruct Hprev; [left|right]; by apply Z.ltb_lt.
Qed.

Lemma recoveryPart_no_edge w last fleet :
  ¬ recoveryEdge last fleet → recoveryPart w last fleet = None.
Proof.
  intros Hno. unfold recoveryPart. destruct last as [previous|]; [|done].
  destruct (_ && _) eqn:E; [|done]. exfalso. apply Hno. exists previous.
  apply andb_true_iff in E as [E Hd]. apply andb_true_iff in E as [E Hf].
  apply orb_true_iff in E. rewrite !Z.ltb_lt in E.
  apply Z.eqb_eq in Hd, Hf. done.
Qed.

(** C8.  Fleet-recovery edge detection.  On a conforming snapshot the
    sweep produces a [FLEET_RECOVERING] event exactly when a previous
    snapshot exists, that snapshot had [failedInstances > 0] or
    [degradedInstances > 0], and the current one has both counts at zero;
    the event is then the only one of its type, has priority [low], goes
    to commander and carries the previous failed and degraded counts.
    In particular there is none on a first sweep.  The sweep records the
    snapshot as the last known state. *)
Theorem fleet_recovery_is_edge_triggered w this fleet :
  fleetEndpoint w = Returned fleet → conforms fleet = true →
  (∀ previous, lastKnownState this = Some previous →
     (0 < failedInstances previous ∨ 0 < degradedInstances previous) →
     failedInstances fleet = 0 → degradedInstances fleet = 0 →
     ∃ e, ofType FLEET_RECOVERING (produced w this) = [e]
          ∧ priority e = low
          ∧ targetAgent e = commander
          ∧ payload e = RecoveryPayload (failedInstances previous)
                          (degradedInstances previous))
  ∧ (¬ recoveryEdge (lastKnownState this) fleet →
     ofType FLEET_RECOVERING (produced w this) = [])
  ∧ (lastKnownState this = None → ofType FLEET_RECOVERING (produced w this) = [])
  ∧ lastKnownState (self (runSweep w this)) = Some fleet.
Proof.
  intros Hw Hconf.
  destruct (conforms_inv _ Hconf) as (entries & c & all & Hp & Hc & Ha & _).
  destruct (runSweep_conforming w this _ _ _ _ Hw Hp Hc Ha) as (_ & -> & ->).
  rewrite !(ofType_sweepEvents _ _ _ _ _ _ _ (failedPart_conforming w _ _ Ha)).
  repeat split.
  - intros previous Hlast Hprev Hf0 Hd0.
    rewrite (recoveryPart_edge w _ _ _ Hlast Hprev Hf0 Hd0).
    by exists (recoveryEvent w previous).
  - intros Hno. by rewrite recoveryPart_no_edge.
  - intros Hnone. rewrite recoveryPart_no_edge; [done|].
    intros (previous & Hsome & _). congruence.
Qed.

Lemma fleet_recovery_is_edge_triggered_witness :
  let unhealthy := Sample.at_ 0 (Sample.snapshot 0 3 0 80 0) in
  let healthy t := Sample.at_ t (Sample.snapshot 0 0 0 80 0) in
  let afterFailure := self (runSweep unhealthy Sample.monitor) in
  let afterHealth := self (runSweep (healthy 0) Sample.monitor) in
  (∃ e, ofType FLEET_RECOVERING (produced (healthy 300000) afterFailure) = [e]
        ∧ priority e = low
        ∧ targetAgent e = commander
        ∧ payload e = RecoveryPayload 3 0)
  ∧ ofType FLEET_RECOVERING (produced (healthy 300000) afterHealth) = []
  ∧ ofType FLEET_RECOVERING (produced (healthy 0) Sample.monitor) = [].
Proof.
  intros unhealthy healthy afterFailure afterHealth.
  destruct (fleet_recovery_is_edge_triggered (healthy 300000) afterFailure _
              eq_refl eq_refl) as (Hedge & _).
  destruct (fleet_recovery_is_edge_triggered (healthy 300000) afterHealth _
              eq_refl eq_refl) as (_ & Hflat & _).
  destruct (fleet_recovery_is_edge_triggered (healthy 0) Sample.monitor _
              eq_refl eq_refl) as (_ & _ & Hfirst & _).
  split; [|split].
  - apply (Hedge (Sample.snapshot 0 3 0 80 0)); [reflexivity | by left | reflexivity..].
  - apply Hflat. intros (previous & Hlast & Hbad & _).
    assert (previous = Sample.snapshot 0 0 0 80 0) as -> by (by inversion Hlast).
    by destruct Hbad.
  - apply Hfirst. reflexivity.
Defined.

(** C6.  Cost-anomaly rule.  On a conforming snapshot a [COST_ANOMALY]
    event is produced if and only if the absolute value of the cost
    deviation reaches the configured ceiling.  It is addressed to ledger;
    its priority is [high] when the absolute deviation exceeds 25 and
    [medium] otherwise; its payload carries the actual and projected
    dollars and the signed deviation, labelled "over" for a positive
    deviation and "under" otherwise.  The check leaves the service object
    as it found it and its result depends on the thresholds only, so the
    suppression ledger is neither read nor written. *)
Theorem cost_anomaly_rule w this fleet c :
  fleetEndpoint w = Returned fleet → conforms fleet = true → cost fleet = Some c →
  let deviation := deviationPct c in
  let ceiling := costAnomalyPct (thresholds this) in
  ((ceiling <= Qabs deviation)%Q →
     ∃ e, ofType COST_ANOMALY (produced w this) = [e]
          ∧ targetAgent e = ledger
          ∧ ((25 < Qabs deviation)%Q → priority e = high)
          ∧ ((Qabs deviation <= 25)%Q → priority e = medium)
          ∧ ((0 < deviation)%Q →
               payload e = CostPayload (monthlyActualUsd c) (monthlyProjectedUsd c)
                             deviation "over")
          ∧ ((deviation <= 0)%Q →
               payload e = CostPayload (monthlyActualUsd c) (monthlyProjectedUsd c)
                             deviation "under"))
  ∧ ((Qabs deviation < ceiling)%Q → ofType COST_ANOMALY (produced w this) = [])
  ∧ self (checkCostAnomaly w fleet this) = this
  ∧ (∀ other, thresholds other = thresholds this →
       result (checkCostAnomaly w fleet other) = result (checkCostAnomaly w fleet this)
       ∧ ofType COST_ANOMALY (produced w other) = ofType COST_ANOMALY (produced w this)).
Proof.
  intros Hw Hconf Hc deviation ceiling.
  destruct (conforms_inv _ Hconf) as (entries & c' & all & Hp & Hc' & Ha & _).
  assert (∀ m, ofType COST_ANOMALY (produced w m)
               = option_list (costPart w (thresholds m) c)) as Hcost.
  { intros m. destruct (runSweep_conforming w m _ _ _ _ Hw Hp Hc Ha) as (_ & _ & ->).
    by rewrite (ofType_sweepEvents _ _ _ _ _ _ _ (failedPart_conforming w _ _ Ha)). }
  rewrite !Hcost. unfold costPart. fold deviation ceiling.
  split; [|split; [|split]].
  - intros Hge. rewrite (proj2 (Qgeb_true _ _) Hge).
    exists (costEvent w c). unfold costEvent, Qgtb.
    cbn [priority payload targetAgent]. fold deviation. repeat split.
    + intros H. by rewrite (proj2 (Qltb_true _ _) H).
    + intros H. by rewrite (proj2 (Qltb_false _ _) H).
    + intros H. by rewrite (proj2 (Qltb_true _ _) H).
    + intros H. by rewrite (proj2 (Qltb_false _ _) H).
  - intros Hlt. by rewrite (proj2 (Qgeb_false _ _) Hlt).
  - by rewrite checkCostAnomaly_eq.
  - intros other Hth. split.
    + by rewrite !checkCostAnomaly_eq, Hth.
    + by rewrite !Hcost, Hth.
Qed.

Lemma cost_anomaly_rule_witness :
  let over := Sample.at_ 1000 (Sample.snapshot 0 0 0 80 16) in
  let under := Sample.at_ 1000 (Sample.snapshot 0 0 0 80 (-16)) in
  let quiet := Sample.at_ 1000 (Sample.snapshot 0 0 0 80 14) in
  (∃ e, ofType COST_ANOMALY (produced over Sample.monitor) = [e]
        ∧ targetAgent e = ledger ∧ priority e = medium
        ∧ payload e = CostPayload 1160 1000 16 "over")
  ∧ (∃ e, ofType COST_ANOMALY (produced under Sample.monitor) = [e]
          ∧ targetAgent e = ledger ∧ priority e = medium
          ∧ payload e = CostPayload 1160 1000 (-16) "under")
  ∧ ofType COST_ANOMALY (produced quiet Sample.monitor) = [].
Proof.
  intros over under quiet.
  assert ((15 <= 16)%Q) as Hbreach by discriminate.
  assert ((16 <= 25)%Q) as Hmild by discriminate.
  assert ((0 < 16)%Q) as Hpos by reflexivity.
  assert ((-16 <= 0)%Q) as Hneg by discriminate.
  assert ((14 < 15)%Q) as Hquiet by reflexivity.
  split; [|split].
  - destruct (cost_anomaly_rule over Sample.monitor _ (Sample.costs 16)
                eq_refl eq_refl eq_refl) as [Hyes _].
    destruct (Hyes Hbreach) as (e & He & Ht & _ & Hm & Ho & _).
    exists e. split; [exact He|]. split; [exact Ht|].
    split; [exact (Hm Hmild) | exact (Ho Hpos)].
  - destruct (cost_anomaly_rule under Sample.monitor _ (Sample.costs (-16))
                eq_refl eq_refl eq_refl) as [Hyes _].
    destruct (Hyes Hbreach) as (e & He & Ht & _ & Hm & _ & Hu).
    exists e. split; [exact He|]. split; [exact Ht|].
    split; [exact (Hm Hmild) | exact (Hu Hneg)].
  - exact (proj1 (proj2 (cost_anomaly_rule quiet Sample.monitor _ (Sample.costs 14)
                           eq_refl eq_refl eq_refl)) Hquiet).
Defined.

(* ================================================================== *)
(** * Arbitrary sweeps: routing, fetch failure, dispatch *)
(* ================================================================== *)

Lemma providersPart_routed w th L entries : Forall routed (providersPart w th L entries).
Proof.
  revert L. induction entries as [|entry rest IH]; intros L; [constructor|].
  cbn. apply Forall_app. split; [|apply IH].
  unfold entryPart. destruct (_ && _); by repeat constructor.
Qed.

Lemma sweepEvents_routed w this fleet pushed c entries :
  failedPart w fleet = Returned pushed →
  Forall routed (sweepEvents w this fleet pushed c entries).
Proof.
  intros Hf. unfold sweepEvents. repeat (apply Forall_app; split).
  - unfold degradedPart. destruct (degradedDue _ _ _); by repeat constructor.
  - unfold failedPart in Hf.
    destruct (0 <? _); [destruct (alerts fleet)|]; simplify_eq; by repeat constructor.
  - unfold costPart. destruct (Qgeb _ _); by repeat constructor.
  - unfold queuePart. destruct (_ <=? _); by repeat constructor.
  - apply providersPart_routed.
  - unfold recoveryPart.
    destruct (lastKnownState this); [destruct (_ && _)|]; by repeat constructor.
Qed.

(** What a sweep emits and posts, whatever the snapshot. *)
Lemma produced_cases w this :
  (produced w this = [] ∧ posted (effects (runSweep w this)) = [])
  ∨ ∃ fleet pushed c entries,
      fleetEndpoint w = Returned fleet
      ∧ failedPart w fleet = Returned pushed
      ∧ produced w this = sweepEvents w this fleet pushed c entries
      ∧ posted (effects (runSweep w this))
        = filter (λ e, is_Some (truthy (getSessionId (config this) (targetAgent e))))
            (produced w this).
Proof.
  unfold produced. rewrite runSweep_eq.
  destruct (fleetEndpoint w) as [fleet|e]; [|by left].
  destruct (failedPart w fleet) as [pushed|e] eqn:Hf; [|by left].
  destruct (cost fleet) as [c|]; [|by left].
  destruct (byProvider fleet) as [entries|]; [|by left].
  right. exists fleet, pushed, c, entries. cbn [effects].
  rewrite emitted_sweep. repeat split; [done..|].
  unfold posted. rewrite !omap_app. cbn. rewrite app_nil_r.
  apply posted_emitEffects.
Qed.

Lemma produced_routed w this : Forall routed (produced w this).
Proof.
  destruct (produced_cases w this) as [[-> _]|(fleet & fe & c & entries & _ & Hf & -> & _)].
  - constructor.
  - by apply sweepEvents_routed.
Qed.

(** The scheduler's callback never rejects, and emits what its sweep emits. *)
Lemma tick_eq w this :
  result (tick w this) = Returned tt
  ∧ emitted (effects (tick w this)) = (if running this then produced w this else [])
  ∧ running (self (tick w this)) = running this.
Proof.
  unfold tick, produced. run_method. destruct (running this) eqn:Hr; cbn; [|done].
  rewrite runSweep_eq.
  destruct (fleetEndpoint w) as [fleet|e]; [|done].
  destruct (afterInstanceCheck_frame w this fleet) as (_ & _ & Hrun & _).
  destruct (failedPart w fleet) as [pushed|e] eqn:Hf;
    [destruct (cost fleet) as [c|]; [destruct (byProvider fleet) as [entries|]|]|];
    cbn; unfold emitted; rewrite ?omap_app; cbn; rewrite ?app_nil_r, ?Hrun, ?Hr;
    done.
Qed.

Lemma ticks_routed ws this : Forall routed (emitted (effects (ticks ws this))).
Proof.
  revert this. induction ws as [|w ws IH]; intros this; [constructor|].
  unfold ticks in *. cbn [forOf].
  destruct (tick_eq w this) as (Hres & Hem & _).
  destruct (tick w this) as [res this' es] eqn:Ht. cbn in Hres, Hem. subst res.
  rewrite (bind_returned _ _ _ _ _ _ Ht). cbn [effects].
  unfold emitted in *. rewrite omap_app. apply Forall_app. split; [|apply IH].
  rewrite Hem. destruct (running this); [apply produced_routed | constructor].
Qed.

(** C10.  Every event produced by a sweep, from any state and on any
    snapshot, and every event produced along any sequence of timer
    firings, has the target that [routeOf] assigns to its type:
    [INSTANCE_DEGRADED] and [PAIR_FAILED] go to guardian, [COST_ANOMALY]
    to ledger, [PROVISION_QUEUE_BACKLOG] to forge, [PROVIDER_DEGRADED] and
    [FLEET_RECOVERING] to commander.  [routeOf] is undefined on
    [INSTANCE_FAILED] and [FLEET_HEALTHY], so these two types are never
    produced. *)
Theorem events_are_routed_by_type :
  (∀ w this, Forall (λ e, routeOf (type e) = Some (targetAgent e)) (produced w this))
  ∧ (∀ ws this,
       Forall (λ e, routeOf (type e) = Some (targetAgent e))
         (emitted (effects (ticks ws this))))
  ∧ (∀ e, routeOf (type e) = Some (targetAgent e) →
       type e ≠ INSTANCE_FAILED ∧ type e ≠ FLEET_HEALTHY).
Proof.
  split; [apply produced_routed | split; [apply ticks_routed |]].
  intros e He. split; intros Ht; by rewrite Ht in He.
Qed.

Lemma events_are_routed_by_type_witness :
  let w := Sample.at_ 1000 (Sample.snapshot 12 2 60 40 30) in
  Forall (λ e, routeOf (type e) = Some (targetAgent e)) (produced w Sample.monitor)
  ∧ type <$> produced w Sample.monitor
    = [INSTANCE_DEGRADED; PAIR_FAILED; COST_ANOMALY; PROVISION_QUEUE_BACKLOG;
       PROVIDER_DEGRADED]
  ∧ Forall (λ e, type e ≠ INSTANCE_FAILED ∧ type e ≠ FLEET_HEALTHY)
      (produced w Sample.monitor).
Proof.
  intros w. destruct events_are_routed_by_type as (Hone & _ & Hsix).
  split; [apply Hone|]. split; [reflexivity|].
  eapply Forall_impl; [apply Hone|]. apply Hsix.
Defined.

(** C7.  Fetch-failure atomicity.  If the fleet-status fetch fails, the
    sweep returns normally having only logged the failure: it produces no
    event, posts nothing, and leaves the service object (both suppression
    stores and the last known snapshot included) exactly as it was.  A
    running scheduler is not stopped by it, and its next firing behaves
    as if the failed sweep had not happened; [start] still arms the
    timer when its initial sweep fails this way. *)
Theorem fetch_failure_aborts_the_sweep w this e :
  fleetEndpoint w = Threw e →
  runSweep w this
  = mkRun (Returned tt) this
      [ Console Debug RunningSweep;
        HttpGet (gfApiBase (config this) +:+ "/v1/fleet/status") (gfApiKey (config this));
        Console Error (FetchFailed e) ]
  ∧ produced w this = []
  ∧ posted (effects (runSweep w this)) = []
  ∧ (running this = true →
       tick w this = runSweep w this
       ∧ ∀ w', tick w' (self (tick w this)) = tick w' this)
  ∧ (running this = false →
       result (start w this) = Returned tt
       ∧ self (start w this)
         = set_pollTimer (Some (default 300000 (healthPollIntervalMs (config this))))
             (set_running true this)).
Proof.
  intros Hw.
  assert (runSweep w this
          = mkRun (Returned tt) this
              [ Console Debug RunningSweep;
                HttpGet (gfApiBase (config this) +:+ "/v1/fleet/status")
                  (gfApiKey (config this));
                Console Error (FetchFailed e) ]) as Hsweep.
  { by rewrite runSweep_eq, Hw. }
  assert (tick w this = (if running this then runSweep w this
                         else mkRun (Returned tt) this [])) as Htick.
  { unfold tick. run_method. destruct (running this); cbn; [|done].
    rewrite Hsweep. done. }
  split; [done|]. unfold produced. rewrite Hsweep.
  split; [done|]. split; [done|]. split.
  - intros Hr. rewrite Htick, Hr, Hsweep. by split.
  - intros Hr. unfold start. run_method. rewrite Hr. cbn.
    by rewrite runSweep_eq, Hw.
Qed.

Lemma fetch_failure_aborts_the_sweep_witness :
  let w := Sample.unreachable 1000 in
  self (runSweep w Sample.started) = Sample.started
  ∧ result (runSweep w Sample.started) = Returned tt
  ∧ produced w Sample.started = []
  ∧ posted (effects (runSweep w Sample.started)) = []
  ∧ tick w Sample.started = runSweep w Sample.started
  ∧ (∀ w', tick w' (self (tick w Sample.started)) = tick w' Sample.started).
Proof.
  intros w.
  destruct (fetch_failure_aborts_the_sweep w Sample.started
              (RequestError "timeout of 10000ms exceeded") eq_refl)
    as (Hsweep & Hnone & Hposted & Htick & _).
  destruct (Htick eq_refl) as [Heq Hnext].
  split; [by rewrite Hsweep|]. split; [by rewrite Hsweep|].
  split; [exact Hnone|]. split; [exact Hposted|]. split; [exact Heq | exact Hnext].
Defined.

(** C9.  Dispatch without an address.  [getSessionId] has no address for
    forge under any configuration.  [emitEvent] always returns normally
    and leaves the service object unchanged; when the lookup for the
    event's target yields no address (forge always, another consumer when
    its session id is not configured) the event is logged, a warning is
    logged, and no delivery is attempted.  Over a whole sweep, the
    deliveries attempted are exactly the produced events whose target has
    an address. *)
Theorem events_without_an_address_are_dropped w this event :
  (∀ cfg, getSessionId cfg forge = None)
  ∧ result (emitEvent w event this) = Returned tt
  ∧ self (emitEvent w event this) = this
  ∧ (truthy (getSessionId (config this) (targetAgent event)) = None →
       effects (emitEvent w event this)
       = [ Console Log (EmitLine event); Console Warn (NoSessionId (targetAgent event)) ])
  ∧ (targetAgent event = forge →
       effects (emitEvent w event this)
       = [ Console Log (EmitLine event); Console Warn (NoSessionId forge) ])
  ∧ posted (effects (runSweep w this))
    = filter (λ e, is_Some (truthy (getSessionId (config this) (targetAgent e))))
        (produced w this).
Proof.
  rewrite emitEvent_eq. cbn [result self effects]. unfold emitEffects.
  split; [done|]. split; [done|]. split; [done|]. split; [|split].
  - by intros ->.
  - by intros ->.
  - by destruct (produced_cases w this) as [[-> ->]|(? & ? & ? & ? & _ & _ & _ & ->)].
Qed.

Lemma events_without_an_address_are_dropped_witness :
  let fleet := Sample.snapshot 0 0 25 80 0 in
  let w := Sample.at_ 1000 fleet in
  effects (emitEvent w (queueEvent w fleet) Sample.monitor)
  = [ Console Log (EmitLine (queueEvent w fleet)); Console Warn (NoSessionId forge) ]
  ∧ result (emitEvent w (queueEvent w fleet) Sample.monitor) = Returned tt
  ∧ produced w Sample.monitor = [queueEvent w fleet]
  ∧ posted (effects (runSweep w Sample.monitor)) = [].
Proof.
  intros fleet w.
  destruct (events_without_an_address_are_dropped w Sample.monitor (queueEvent w fleet))
    as (_ & Hres & _ & _ & Hforge & Hposted).
  split; [by apply Hforge|]. split; [done|]. split; [reflexivity|].
  rewrite Hposted. reflexivity.
Defined.


(* ================================================================== *)
(** * The suppression ledger across sweeps *)
(* ================================================================== *)

Lemma sweep_summary w this fleet entries :
  fleetEndpoint w = Returned fleet → conforms fleet = true →
  byProvider fleet = Some entries →
  thresholds (self (runSweep w this)) = thresholds this
  ∧ suppressedInstances (self (runSweep w this))
    = suppressedInstances (afterInstanceCheck w this fleet)
  ∧ suppressedProviders (self (runSweep w this))
    = providersLedger w (thresholds this) (suppressedProviders this) entries
  ∧ ofType INSTANCE_DEGRADED (produced w this) = degradedPart w this fleet
  ∧ ∀ p, forProvider p (produced w this)
         = forProvider p
             (providersPart w (thresholds this) (suppressedProviders this) entries).
Proof.
  intros Hw Hconf Hp.
  destruct (conforms_inv _ Hconf) as (entries' & c & all & Hp' & Hc & Ha & _).
  destruct (runSweep_conforming w this _ _ _ _ Hw Hp Hc Ha) as (_ & -> & ->).
  destruct (sweepSelf_frame w this fleet entries) as (_ & -> & _ & _ & -> & -> & _).
  pose proof (failedPart_conforming w _ _ Ha) as Hf.
  rewrite (ofType_sweepEvents _ _ _ _ _ _ _ Hf).
  repeat split. intros p. by apply forProvider_sweepEvents.
Qed.

(** What the instance check leaves under the aggregate key when the fleet
    has degraded instances. *)
Lemma afterInstanceCheck_key w this fleet :
  0 < degradedInstances fleet →
  suppressedInstances (afterInstanceCheck w this fleet) !! "fleet-degraded"
  = (if notSuppressed (clock w) (suppressedInstances this !! "fleet-degraded")
     then Some (clock w + degradedSuppressionMins (thresholds this) * 60000)
     else suppressedInstances this !! "fleet-degraded")
  ∧ degradedPart w this fleet
    = (if notSuppressed (clock w) (suppressedInstances this !! "fleet-degraded")
       then [degradedEvent w (degradedSuppressionMins (thresholds this) * 60000) fleet]
       else []).
Proof.
  intros Hd. unfold afterInstanceCheck, degradedPart, degradedDue, window.
  rewrite (proj2 (Z.ltb_lt _ _) Hd). cbn [andb].
  destruct (notSuppressed _ _); [|done]. cbn. by rewrite lookup_insert_eq.
Qed.

(** C4.  Degraded-instance debouncing.  Starting from an empty aggregate
    store, a sweep of a conforming snapshot with [degradedInstances > 0]
    produces one [INSTANCE_DEGRADED] event (priority [high] above ten
    degraded instances, [medium] otherwise) and sets the aggregate key's
    expiry to the sweep's time plus the configured window; a second such
    sweep no later than that expiry produces no [INSTANCE_DEGRADED]
    event; a third such sweep after the expiry produces one again. *)
Theorem degraded_alerts_are_debounced w1 w2 w3 f1 f2 f3 this :
  suppressedInstances this = ∅ →
  fleetEndpoint w1 = Returned f1 → conforms f1 = true → 0 < degradedInstances f1 →
  fleetEndpoint w2 = Returned f2 → conforms f2 = true → 0 < degradedInstances f2 →
  fleetEndpoint w3 = Returned f3 → conforms f3 = true → 0 < degradedInstances f3 →
  let expiry := clock w1 + degradedSuppressionMins (thresholds this) * 60000 in
  clock w2 ≤ expiry → expiry < clock w3 →
  let this1 := self (runSweep w1 this) in
  let this2 := self (runSweep w2 this1) in
  (∃ e, ofType INSTANCE_DEGRADED (produced w1 this) = [e]
        ∧ targetAgent e = guardian
        ∧ priority e = (if 10 <? degradedInstances f1 then high else medium)
        ∧ payload e = DegradedPayload (degradedInstances f1) (failedInstances f1)
                        (byProvider f1)
        ∧ suppressUntil e = Some expiry)
  ∧ suppressedInstances this1 !! "fleet-degraded" = Some expiry
  ∧ ofType INSTANCE_DEGRADED (produced w2 this1) = []
  ∧ (∃ e, ofType INSTANCE_DEGRADED (produced w3 this2) = [e]
          ∧ suppressUntil e
            = Some (clock w3 + degradedSuppressionMins (thresholds this) * 60000)).
Proof.
  intros Hempty Hw1 Hc1 Hd1 Hw2 Hc2 Hd2 Hw3 Hc3 Hd3 expiry Hin Hout this1 this2.
  destruct (conforms_inv _ Hc1) as (en1 & _ & _ & Hp1 & _).
  destruct (conforms_inv _ Hc2) as (en2 & _ & _ & Hp2 & _).
  destruct (conforms_inv _ Hc3) as (en3 & _ & _ & Hp3 & _).
  destruct (sweep_summary w1 this _ _ Hw1 Hc1 Hp1) as (Ht1 & HL1 & _ & -> & _).
  destruct (sweep_summary w2 this1 _ _ Hw2 Hc2 Hp2) as (Ht2 & HL2 & _ & -> & _).
  destruct (sweep_summary w3 this2 _ _ Hw3 Hc3 Hp3) as (_ & _ & _ & -> & _).
  destruct (afterInstanceCheck_key w1 this f1 Hd1) as [Hk1 ->].
  rewrite Hempty, lookup_empty in Hk1. cbn in Hk1. rewrite Hempty, lookup_empty. cbn.
  assert (suppressedInstances this1 !! "fleet-degraded" = Some expiry) as Hthis1.
  { unfold this1. by rewrite HL1. }
  destruct (afterInstanceCheck_key w2 this1 f2 Hd2) as [Hk2 ->].
  rewrite Hthis1, (notSuppressed_live _ _ Hin) in Hk2 |- *.
  assert (suppressedInstances this2 !! "fleet-degraded" = Some expiry) as Hthis2.
  { unfold this2. by rewrite HL2. }
  destruct (afterInstanceCheck_key w3 this2 f3 Hd3) as [_ ->].
  rewrite Hthis2, (notSuppressed_expired _ _ Hout).
  fold this1 in Ht1. fold this2 in Ht2.
  split; [by eexists|]. split; [done|]. split; [done|].
  eexists. split; [done|]. cbn. by rewrite Ht2, Ht1.
Qed.

Lemma degraded_alerts_are_debounced_witness :
  let fleet := Sample.snapshot 12 0 0 80 0 in
  let this1 := self (runSweep (Sample.at_ 0 fleet) Sample.monitor) in
  let this2 := self (runSweep (Sample.at_ 300000 fleet) this1) in
  (∃ e, ofType INSTANCE_DEGRADED (produced (Sample.at_ 0 fleet) Sample.monitor) = [e]
        ∧ targetAgent e = guardian
        ∧ priority e = high
        ∧ payload e = DegradedPayload 12 0 (byProvider fleet)
        ∧ suppressUntil e = Some 1800000)
  ∧ suppressedInstances this1 !! "fleet-degraded" = Some 1800000
  ∧ ofType INSTANCE_DEGRADED (produced (Sample.at_ 300000 fleet) this1) = []
  ∧ (∃ e, ofType INSTANCE_DEGRADED (produced (Sample.at_ 1800001 fleet) this2) = [e]
          ∧ suppressUntil e = Some 3600001).
Proof.
  intros fleet.
  apply (degraded_alerts_are_debounced
           (Sample.at_ 0 fleet) (Sample.at_ 300000 fleet) (Sample.at_ 1800001 fleet)
           fleet fleet fleet Sample.monitor);
    first [reflexivity | discriminate].
Defined.

Lemma sweep_provider w this p summary :
  observes w p summary →
  thresholds (self (runSweep w this)) = thresholds this
  ∧ suppressedProviders (self (runSweep w this)) !! p
    = entryOutcome w (thresholds this) (suppressedProviders this !! p) summary
  ∧ forProvider p (produced w this)
    = entryPart w (thresholds this) (suppressedProviders this) (p, summary).
Proof.
  intros (fleet & entries & Hw & Hconf & Hp & Hin).
  destruct (conforms_inv _ Hconf) as (entries' & _ & _ & Hp' & _ & _ & Hd).
  assert (entries' = entries) as -> by congruence.
  destruct (sweep_summary w this _ _ Hw Hconf Hp) as (-> & _ & -> & _ & ->).
  split; [done|]. split.
  - by apply providersLedger_own.
  - by apply providersPart_own.
Qed.

Lemma entry_healthy w th before summary :
  (providerDegradedScore th <= healthScore summary)%Q →
  entryOutcome w th before summary = None
  ∧ ∀ L p, entryPart w th L (p, summary) = [].
Proof.
  intros H. apply Qltb_false in H. unfold entryOutcome, entryPart. cbn.
  by rewrite H.
Qed.

Lemma entry_degraded w th L p summary :
  (healthScore summary < providerDegradedScore th)%Q →
  entryOutcome w th (L !! p) summary
  = (if notSuppressed (clock w) (L !! p) then Some (clock w + 3600000) else L !! p)
  ∧ entryPart w th L (p, summary)
    = (if notSuppressed (clock w) (L !! p) then [providerEvent w p summary] else []).
Proof.
  intros H. apply Qltb_true in H. unfold entryOutcome, entryPart. cbn.
  by rewrite H.
Qed.

(** C5.  Per-provider degradation trace.  Five consecutive sweeps of
    conforming snapshots in which provider [p] scores at or above the
    floor, below it, below it again within the hour, at or above it, and
    below it once more (80, 60, 60, 80, 60 against the floor 75): the
    first produces nothing about [p]; the second produces exactly one
    [PROVIDER_DEGRADED] event about [p] (priority [critical] below 50,
    [high] otherwise) and sets a one-hour expiry for [p]; the third
    produces none; the fourth deletes the entry of [p]; the fifth
    produces a new event, whatever its time. *)
Theorem provider_degradation_trace w0 w1 w2 w3 w4 p s0 s1 s2 s3 s4 this :
  observes w0 p s0 → observes w1 p s1 → observes w2 p s2 →
  observes w3 p s3 → observes w4 p s4 →
  let floor := providerDegradedScore (thresholds this) in
  (floor <= healthScore s0)%Q →
  (healthScore s1 < floor)%Q →
  (healthScore s2 < floor)%Q →
  (floor <= healthScore s3)%Q →
  (healthScore s4 < floor)%Q →
  clock w2 ≤ clock w1 + 3600000 →
  let this1 := self (runSweep w0 this) in
  let this2 := self (runSweep w1 this1) in
  let this3 := self (runSweep w2 this2) in
  let this4 := self (runSweep w3 this3) in
  forProvider p (produced w0 this) = []
  ∧ (∃ e, forProvider p (produced w1 this1) = [e]
          ∧ targetAgent e = commander
          ∧ ((healthScore s1 < 50)%Q → priority e = critical)
          ∧ ((50 <= healthScore s1)%Q → priority e = high)
          ∧ payload e = ProviderPayload p (healthScore s1) (active s1) (degraded s1)
          ∧ suppressUntil e = Some (clock w1 + 3600000))
  ∧ suppressedProviders this2 !! p = Some (clock w1 + 3600000)
  ∧ forProvider p (produced w2 this2) = []
  ∧ suppressedProviders this4 !! p = None
  ∧ (∃ e, forProvider p (produced w4 this4) = [e]
          ∧ suppressUntil e = Some (clock w4 + 3600000)).
Proof.
  intros O0 O1 O2 O3 O4 floor H0 H1 H2 H3 H4 Hin this1 this2 this3 this4.
  destruct (sweep_provider w0 this _ _ O0) as (T1 & L1 & ->).
  destruct (sweep_provider w1 this1 _ _ O1) as (T2 & L2 & ->).
  destruct (sweep_provider w2 this2 _ _ O2) as (T3 & L3 & ->).
  destruct (sweep_provider w3 this3 _ _ O3) as (T4 & L4 & _).
  destruct (sweep_provider w4 this4 _ _ O4) as (_ & _ & ->).
  fold this1 in T1, L1. fold this2 in T2, L2. fold this3 in T3, L3.
  fold this4 in T4, L4.
  assert (thresholds this1 = thresholds this) as E1 by done.
  assert (thresholds this2 = thresholds this) as E2 by congruence.
  assert (thresholds this3 = thresholds this) as E3 by congruence.
  assert (thresholds this4 = thresholds this) as E4 by congruence.
  rewrite E1 in *. rewrite E2 in *. rewrite E3 in *. rewrite E4 in *.
  destruct (entry_healthy w0 (thresholds this) (suppressedProviders this !! p) s0 H0)
    as [K0 ->].
  rewrite K0 in L1.
  destruct (entry_degraded w1 (thresholds this) (suppressedProviders this1) p s1 H1)
    as [K1 ->].
  rewrite K1, L1 in L2. rewrite L1. cbn [notSuppressed] in *.
  destruct (entry_degraded w2 (thresholds this) (suppressedProviders this2) p s2 H2)
    as [K2 ->].
  rewrite K2, L2, (notSuppressed_live _ _ Hin) in L3.
  rewrite L2, (notSuppressed_live _ _ Hin).
  destruct (entry_healthy w3 (thresholds this) (suppressedProviders this3 !! p) s3 H3)
    as [K3 _].
  rewrite K3 in L4.
  destruct (entry_degraded w4 (thresholds this) (suppressedProviders this4) p s4 H4)
    as [_ ->].
  rewrite L4. cbn [notSuppressed].
  split; [done|].
  split; [|split; [done|split; [done|split; [done|by eexists]]]].
  exists (providerEvent w1 p s1). unfold providerEvent.
  cbn [priority payload targetAgent suppressUntil].
  split; [done|]. split; [done|]. split; [|split; [|done]].
  - intros H. by rewrite (proj2 (Qltb_true _ _) H).
  - intros H. by rewrite (proj2 (Qltb_false _ _) H).
Qed.

(** The sample snapshots report on Hetzner. *)
Lemma observes_sample t d f q score dev :
  observes (Sample.at_ t (Sample.snapshot d f q score dev)) "hetzner" (Sample.hetzner score).
Proof.
  exists (Sample.snapshot d f q score dev),
    [("hetzner", Sample.hetzner score); ("vultr", Sample.hetzner 90)].
  repeat split. apply list_elem_of_here.
Defined.

Lemma provider_degradation_trace_witness :
  let sweep t score := Sample.at_ t (Sample.snapshot 0 0 0 score 0) in
  let this1 := self (runSweep (sweep 0 80%Q) Sample.monitor) in
  let this2 := self (runSweep (sweep 300000 60%Q) this1) in
  let this3 := self (runSweep (sweep 600000 60%Q) this2) in
  let this4 := self (runSweep (sweep 900000 80%Q) this3) in
  forProvider "hetzner" (produced (sweep 0 80%Q) Sample.monitor) = []
  ∧ (∃ e, forProvider "hetzner" (produced (sweep 300000 60%Q) this1) = [e]
          ∧ targetAgent e = commander
          ∧ priority e = high
          ∧ payload e = ProviderPayload "hetzner" 60 38 2
          ∧ suppressUntil e = Some 3900000)
  ∧ suppressedProviders this2 !! "hetzner" = Some 3900000
  ∧ forProvider "hetzner" (produced (sweep 600000 60%Q) this2) = []
  ∧ suppressedProviders this4 !! "hetzner" = None
  ∧ (∃ e, forProvider "hetzner" (produced (sweep 1200000 60%Q) this4) = [e]
          ∧ suppressUntil e = Some 4800000).
Proof.
  intros sweep this1 this2 this3 this4.
  assert ((75 <= 80)%Q) as Hhealthy by discriminate.
  assert ((60 < 75)%Q) as Hdegraded by reflexivity.
  assert (600000 ≤ 300000 + 3600000) as Hwithin by discriminate.
  destruct (provider_degradation_trace
              (sweep 0 80%Q) (sweep 300000 60%Q) (sweep 600000 60%Q)
              (sweep 900000 80%Q) (sweep 1200000 60%Q) "hetzner"
              (Sample.hetzner 80) (Sample.hetzner 60) (Sample.hetzner 60)
              (Sample.hetzner 80) (Sample.hetzner 60) Sample.monitor
              (observes_sample _ _ _ _ _ _) (observes_sample _ _ _ _ _ _)
              (observes_sample _ _ _ _ _ _) (observes_sample _ _ _ _ _ _)
              (observes_sample _ _ _ _ _ _)
              Hhealthy Hdegraded Hdegraded Hhealthy Hdegraded Hwithin)
    as (H0 & (e & He & Ht & _ & Hhigh & Hp & Hs) & H2 & H3 & H4 & H5).
  assert ((50 <= 60)%Q) as Hmild by discriminate.
  split; [exact H0|].
  split; [exists e; split; [exact He|]; split; [exact Ht|];
          split; [exact (Hhigh Hmild)|]; split; [exact Hp | exact Hs]|].
  split; [exact H2|]. split; [exact H3|]. split; [exact H4 | exact H5].
Defined.

(** C1 (as the code has it).  Suppression-ledger lifecycle over one sweep
    of a conforming snapshot.  For the aggregate key when the fleet has
    degraded instances, and for a provider's key when its score is below
    the floor: an absent entry is created with expiry now plus the window
    (the configured one, respectively one hour); an entry whose expiry has
    not passed is left as it is; an entry whose expiry has passed is
    overwritten with now plus the window.  A provider's entry is deleted
    by every sweep in which its score is at or above the floor. *)
Theorem suppression_ledger_lifecycle w this fleet :
  fleetEndpoint w = Returned fleet → conforms fleet = true →
  let this' := self (runSweep w this) in
  let now := clock w in
  let window := degradedSuppressionMins (thresholds this) * 60000 in
  let floor := providerDegradedScore (thresholds this) in
  (0 < degradedInstances fleet →
     (suppressedInstances this !! "fleet-degraded" = None →
        suppressedInstances this' !! "fleet-degraded" = Some (now + window))
     ∧ (∀ u, suppressedInstances this !! "fleet-degraded" = Some u → now ≤ u →
          suppressedInstances this' !! "fleet-degraded" = Some u)
     ∧ (∀ u, suppressedInstances this !! "fleet-degraded" = Some u → u < now →
          suppressedInstances this' !! "fleet-degraded" = Some (now + window)))
  ∧ (∀ entries p summary,
       byProvider fleet = Some entries → (p, summary) ∈ entries →
       ((healthScore summary < floor)%Q →
          (suppressedProviders this !! p = None →
             suppressedProviders this' !! p = Some (now + 3600000))
          ∧ (∀ u, suppressedProviders this !! p = Some u → now ≤ u →
               suppressedProviders this' !! p = Some u)
          ∧ (∀ u, suppressedProviders this !! p = Some u → u < now →
               suppressedProviders this' !! p = Some (now + 3600000)))
       ∧ ((floor <= healthScore summary)%Q → suppressedProviders this' !! p = None)).
Proof.
  intros Hw Hconf this' now window floor. split.
  - intros Hd.
    destruct (conforms_inv _ Hconf) as (entries & _ & _ & Hp & _).
    destruct (sweep_summary w this _ _ Hw Hconf Hp) as (_ & HL & _).
    destruct (afterInstanceCheck_key w this fleet Hd) as [Hk _].
    unfold this'. rewrite HL, Hk. repeat split.
    + by intros ->.
    + intros u -> Hu. by rewrite notSuppressed_live.
    + intros u -> Hu. by rewrite notSuppressed_expired.
  - intros entries p summary Hp Hin.
    assert (observes w p summary) as O by (by exists fleet, entries).
    destruct (sweep_provider w this _ _ O) as (_ & HL & _).
    unfold this'. rewrite HL. split.
    + intros Hlow.
      destruct (entry_degraded w (thresholds this) (suppressedProviders this) p _ Hlow)
        as [-> _].
      repeat split.
      * by intros ->.
      * intros u -> Hu. by rewrite notSuppressed_live.
      * intros u -> Hu. by rewrite notSuppressed_expired.
    + intros Hok. by destruct (entry_healthy w (thresholds this)
                                 (suppressedProviders this !! p) summary Hok) as [-> _].
Qed.

Lemma suppression_ledger_lifecycle_witness :
  let w := Sample.at_ 1000 (Sample.snapshot 3 0 0 60 0) in
  let recovered := Sample.at_ 2000 (Sample.snapshot 3 0 0 80 0) in
  let this' := self (runSweep w Sample.monitor) in
  suppressedInstances this' !! "fleet-degraded" = Some 1801000
  ∧ suppressedProviders this' !! "hetzner" = Some 3601000
  ∧ suppressedInstances (self (runSweep recovered this')) !! "fleet-degraded"
    = Some 1801000
  ∧ suppressedProviders (self (runSweep recovered this')) !! "hetzner" = None.
Proof.
  intros w recovered this'.
  destruct (suppression_ledger_lifecycle w Sample.monitor _ eq_refl eq_refl)
    as [Hagg Hprov].
  destruct (suppression_ledger_lifecycle recovered this' _ eq_refl eq_refl)
    as [Hagg' Hprov'].
  assert ((60 < 75)%Q) as Hlow by reflexivity.
  assert ((75 <= 80)%Q) as Hok by discriminate.
  split; [|split; [|split]].
  - apply (proj1 (Hagg eq_refl)). reflexivity.
  - apply (proj1 (proj1 (Hprov _ "hetzner" (Sample.hetzner 60) eq_refl
                           (list_elem_of_here _ _)) Hlow)).
    reflexivity.
  - apply (proj1 (proj2 (Hagg' eq_refl)) 1801000); [reflexivity | discriminate].
  - exact (proj2 (Hprov' _ "hetzner" (Sample.hetzner 80) eq_refl
                    (list_elem_of_here _ _)) Hok).
Defined.

(** C1 as stated fails on the aggregate store: with a live entry, a sweep
    whose snapshot has no degraded instance leaves the entry in place, and
    a repeated breach leaves its expiry where it was. *)
Lemma ledger_lifecycle_counterexample :
  let this := set_suppressedInstances {["fleet-degraded" := 2000000]} Sample.monitor in
  let cleared := Sample.at_ 1000 (Sample.snapshot 0 0 0 80 0) in
  let repeated := Sample.at_ 1000 (Sample.snapshot 3 0 0 80 0) in
  degradedInstances (Sample.snapshot 0 0 0 80 0) = 0
  ∧ suppressedInstances (self (runSweep cleared this)) !! "fleet-degraded" ≠ None
  ∧ suppressedInstances (self (runSweep repeated this)) !! "fleet-degraded"
    ≠ Some (clock repeated + degradedSuppressionMins (thresholds this) * 60000)
  ∧ suppressedInstances (self (runSweep repeated this)) !! "fleet-degraded"
    = Some 2000000.
Proof. vm_compute. repeat split; discriminate. Qed.

(** C2 (as the code has it).  If any of the five checks throws on the
    fetched snapshot, the sweep is abandoned there: it rejects, none of
    its events reaches the dispatcher, nothing is posted, and the last
    known snapshot and the provider store are as before the sweep.  The
    scheduler's callback catches the rejection, logs it and stays
    running. *)
Theorem a_throwing_check_aborts_the_sweep w this fleet :
  fleetEndpoint w = Returned fleet →
  (∃ m e,
     result (checkInstanceHealth w fleet m) = Threw e
     ∨ result (checkCostAnomaly w fleet m) = Threw e
     ∨ result (checkProvisionQueue w fleet m) = Threw e
     ∨ result (checkProviderHealth w fleet m) = Threw e
     ∨ result (checkFleetRecovery w fleet m) = Threw e) →
  (∃ e, result (runSweep w this) = Threw e
        ∧ (running this = true →
             result (tick w this) = Returned tt
             ∧ running (self (tick w this)) = true
             ∧ Console Error (SweepFailed e) ∈ effects (tick w this)))
  ∧ produced w this = []
  ∧ posted (effects (runSweep w this)) = []
  ∧ lastKnownState (self (runSweep w this)) = lastKnownState this
  ∧ suppressedProviders (self (runSweep w this)) = suppressedProviders this.
Proof.
  intros Hw (m & e & Hthrow).
  assert ((∃ e', failedPart w fleet = Threw e') ∨ cost fleet = None
          ∨ byProvider fleet = None) as Hmissing.
  { rewrite checkInstanceHealth_eq, checkCostAnomaly_eq, checkProvisionQueue_eq,
      checkProviderHealth_eq, checkFleetRecovery_eq in Hthrow. cbn in Hthrow.
    destruct Hthrow as [H|[H|[H|[H|H]]]]; try discriminate.
    - left. destruct (failedPart w fleet); [discriminate | by eexists].
    - right. left. by destruct (cost fleet).
    - right. right. by destruct (byProvider fleet). }
  destruct (afterInstanceCheck_frame w this fleet) as (_ & _ & Hr & _ & HP & HK).
  assert (∃ e', runSweep w this
                = mkRun (Threw e') (afterInstanceCheck w this fleet) (sweepPrefix this))
    as [e' Hsweep].
  { rewrite runSweep_eq, Hw.
    destruct (failedPart w fleet) as [fe|e1]; [|by eexists].
    destruct (cost fleet) as [c|]; [|by eexists].
    destruct (byProvider fleet) as [entries|]; [|by eexists].
    by destruct Hmissing as [[? ?]|[?|?]]. }
  unfold produced. rewrite Hsweep. cbn [result self effects].
  split; [|by repeat split].
  exists e'. split; [done|]. intros Hrun.
  unfold tick. run_method. rewrite Hrun. cbn. rewrite Hsweep. cbn.
  rewrite Hr. split; [done|]. split; [done|].
  do 2 apply list_elem_of_further. apply list_elem_of_here.
Qed.

Lemma a_throwing_check_aborts_the_sweep_witness :
  let fleet := Sample.withoutCost (Sample.snapshot 3 0 25 10 0) in
  let w := Sample.at_ 1000 fleet in
  result (runSweep w Sample.started) = Threw (TypeError "cost")
  ∧ result (tick w Sample.started) = Returned tt
  ∧ running (self (tick w Sample.started)) = true
  ∧ produced w Sample.started = []
  ∧ posted (effects (runSweep w Sample.started)) = []
  ∧ lastKnownState (self (runSweep w Sample.started)) = None.
Proof.
  intros fleet w.
  destruct (a_throwing_check_aborts_the_sweep w Sample.started fleet eq_refl)
    as ((e & He & Htick) & Hnone & Hposted & Hlast & _).
  { exists Sample.started, (TypeError "cost"). right. left. reflexivity. }
  destruct (Htick eq_refl) as (Hres & Hrun & _).
  repeat split; try done.
Defined.

(** C2 as stated fails: on a snapshot without its [cost] member the cost
    check throws; the queue and provider checks would each have produced
    an event, yet the sweep produces none and the provider store is
    untouched, while the entry written by the instance check stays. *)
Lemma per_rule_isolation_counterexample :
  let fleet := Sample.withoutCost (Sample.snapshot 3 0 25 10 0) in
  let w := Sample.at_ 1000 fleet in
  result (checkCostAnomaly w fleet Sample.monitor) = Threw (TypeError "cost")
  ∧ result (checkProvisionQueue w fleet Sample.monitor)
    = Returned (Some (queueEvent w fleet))
  ∧ result (checkProviderHealth w fleet Sample.monitor)
    = Returned [providerEvent w "hetzner" (Sample.hetzner 10)]
  ∧ suppressedProviders (self (checkProviderHealth w fleet Sample.monitor)) !! "hetzner"
    = Some 3601000
  ∧ produced w Sample.monitor = []
  ∧ suppressedProviders (self (runSweep w Sample.monitor)) !! "hetzner" = None
  ∧ suppressedInstances (self (runSweep w Sample.monitor)) !! "fleet-degraded"
    = Some 1801000.
Proof. vm_compute. repeat split. Qed.


(* ================================================================== *)
(** * Further properties of the service *)
(* ================================================================== *)

(** ** What a sweep leaves alone *)

Lemma runSweep_frame w this :
  config (self (runSweep w this)) = config this
  ∧ thresholds (self (runSweep w this)) = thresholds this
  ∧ running (self (runSweep w this)) = running this
  ∧ pollTimer (self (runSweep w this)) = pollTimer this.
Proof.
  rewrite runSweep_eq. destruct (fleetEndpoint w) as [fleet|e]; [|done].
  destruct (afterInstanceCheck_frame w this fleet) as (Hc & Ht & Hr & Hp & _).
  destruct (failedPart w fleet) as [pushed|e]; [|done].
  destruct (cost fleet) as [c|]; [|done].
  destruct (byProvider fleet) as [entries|]; [|done].
  cbn [self]. by destruct (sweepSelf_frame w this fleet entries) as (-> & -> & -> & -> & _).
Qed.

Lemma runSweep_aggregate_store w this :
  suppressedInstances (self (runSweep w this))
  = match fleetEndpoint w with
    | Returned fleet => suppressedInstances (afterInstanceCheck w this fleet)
    | Threw _ => suppressedInstances this
    end.
Proof.
  rewrite runSweep_eq. destruct (fleetEndpoint w) as [fleet|e]; [|done].
  destruct (failedPart w fleet) as [pushed|e]; [|done].
  destruct (cost fleet) as [c|]; [|done].
  destruct (byProvider fleet) as [entries|]; [|done].
  cbn [self]. by destruct (sweepSelf_frame w this fleet entries) as (_ & _ & _ & _ & -> & _).
Qed.

Lemma tick_unfold w this :
  tick w this
  = if running this then
      match result (runSweep w this) with
      | Returned _ => runSweep w this
      | Threw e =>
          mkRun (Returned tt) (self (runSweep w this))
            (effects (runSweep w this) ++ [Console Error (SweepFailed e)])
      end
    else mkRun (Returned tt) this [].
Proof.
  unfold tick. run_method. destruct (running this); cbn; [|done].
  by destruct (runSweep w this) as [[[]|e] m es].
Qed.

Lemma tick_self w this :
  self (tick w this) = if running this then self (runSweep w this) else this.
Proof.
  rewrite tick_unfold. destruct (running this); [|done].
  by destruct (result (runSweep w this)).
Qed.

Lemma ticks_cons w ws this :
  ticks (w :: ws) this
  = mkRun (result (ticks ws (self (tick w this))))
          (self (ticks ws (self (tick w this))))
          (effects (tick w this) ++ effects (ticks ws (self (tick w this)))).
Proof.
  unfold ticks. cbn [forOf].
  destruct (tick_eq w this) as (Hres & _).
  destruct (tick w this) as [res this' es] eqn:Ht. cbn in Hres. subst res.
  by rewrite (bind_returned _ _ _ _ _ _ Ht).
Qed.

(** X1.  Timer callbacks never reject, whatever the fleet endpoint and
    the snapshots do, and they leave the configuration, the thresholds, the
    [running] flag and the timer handle as they were: only the two
    suppression stores and [lastKnownState] change across sweeps. *)
Theorem sweeps_keep_configuration ws this :
  result (ticks ws this) = Returned tt
  ∧ config (self (ticks ws this)) = config this
  ∧ thresholds (self (ticks ws this)) = thresholds this
  ∧ running (self (ticks ws this)) = running this
  ∧ pollTimer (self (ticks ws this)) = pollTimer this.
Proof.
  revert this. induction ws as [|w ws IH]; intros this; [done|].
  rewrite ticks_cons. cbn [result self].
  destruct (IH (self (tick w this))) as (-> & -> & -> & -> & ->).
  rewrite tick_self. destruct (running this) eqn:Hr; [|by rewrite Hr].
  by destruct (runSweep_frame w this) as (-> & -> & -> & ->).
Qed.

(** X2.  The instance store is only ever written at the key
    ["fleet-degraded"]: any other key reads the same before and after any
    number of timer callbacks. *)
Theorem aggregate_store_has_one_key ws this k :
  k ≠ "fleet-degraded" →
  suppressedInstances (self (ticks ws this)) !! k = suppressedInstances this !! k.
Proof.
  intros Hk. revert this. induction ws as [|w ws IH]; intros this; [done|].
  rewrite ticks_cons. cbn [self]. rewrite IH, tick_self.
  destruct (running this); [|done].
  rewrite runSweep_aggregate_store. destruct (fleetEndpoint w) as [fleet|e]; [|done].
  unfold afterInstanceCheck. destruct (degradedDue w this fleet); [|done].
  cbn. by rewrite lookup_insert_ne.
Qed.

Lemma aggregate_store_has_one_key_witness :
  let fleet := Sample.snapshot 3 0 0 60 0 in
  suppressedInstances
    (self (ticks [Sample.at_ 0 fleet; Sample.at_ 300000 fleet] Sample.started))
    !! "hetzner" = None.
Proof.
  intros fleet.
  assert ("hetzner" ≠ "fleet-degraded") as Hne by discriminate.
  exact (aggregate_store_has_one_key
           [Sample.at_ 0 fleet; Sample.at_ 300000 fleet] Sample.started "hetzner" Hne).
Defined.

(** ** The scheduler *)

Lemma start_unfold w this :
  start w this
  = if running this then mkRun (Returned tt) this [Console Warn AlreadyRunning]
    else
      let interval := default 300000 (healthPollIntervalMs (config this)) in
      let sweep := runSweep w (set_running true this) in
      mkRun (Returned tt) (set_pollTimer (Some interval) (self sweep))
        (Console Log (Starting interval)
           :: effects sweep
           ++ match result sweep with
              | Returned _ => []
              | Threw e => [Console Error (InitialSweepFailed e)]
              end).
Proof.
  unfold start. run_method. destruct (running this); cbn; [done|].
  destruct (runSweep w (set_running true this)) as [[[]|e] m es]; cbn;
    by rewrite ?app_nil_r.
Qed.

Lemma start_running w this : running (self (start w this)) = true.
Proof.
  rewrite start_unfold. destruct (running this) eqn:Hr; [done|]. cbn.
  by destruct (runSweep_frame w (set_running true this)) as (_ & _ & -> & _).
Qed.

(** X3.  [start] on a monitor that is not running resolves even when
    the initial sweep rejects; the monitor is then the one the initial sweep
    left, with the timer armed at [healthPollIntervalMs] (300000 ms when
    that is not configured) and [running] set, and the events of the call
    are those of that first sweep. *)
Theorem start_arms_the_timer w this :
  running this = false →
  let interval := default 300000 (healthPollIntervalMs (config this)) in
  result (start w this) = Returned tt
  ∧ self (start w this)
    = set_pollTimer (Some interval) (self (runSweep w (set_running true this)))
  ∧ running (self (start w this)) = true
  ∧ pollTimer (self (start w this)) = Some interval
  ∧ emitted (effects (start w this)) = produced w (set_running true this).
Proof.
  intros Hr interval. pose proof (start_running w this) as Hrun.
  rewrite start_unfold, Hr in *. cbn in *.
  split; [done|]. split; [done|]. split; [done|]. split; [done|].
  unfold produced, emitted. rewrite omap_app.
  destruct (result (runSweep w (set_running true this))); cbn; by rewrite app_nil_r.
Qed.

Lemma start_arms_the_timer_witness :
  let w := Sample.at_ 1000 (Sample.snapshot 3 0 0 80 0) in
  result (start w Sample.monitor) = Returned tt
  ∧ running (self (start w Sample.monitor)) = true
  ∧ pollTimer (self (start w Sample.monitor)) = Some 300000
  ∧ type <$> emitted (effects (start w Sample.monitor)) = [INSTANCE_DEGRADED].
Proof.
  intros w.
  destruct (start_arms_the_timer w Sample.monitor eq_refl)
    as (Hres & _ & Hrun & Htimer & Hem).
  split; [exact Hres|]. split; [exact Hrun|]. split; [exact Htimer|].
  rewrite Hem. reflexivity.
Defined.

(** X4.  A [start] that follows a [start] only logs the warning: no
    second sweep, no request, no second timer, the monitor unchanged. *)
Theorem start_is_idempotent w1 w2 this :
  start w2 (self (start w1 this))
  = mkRun (Returned tt) (self (start w1 this)) [Console Warn AlreadyRunning].
Proof. by rewrite (start_unfold w2), start_running. Qed.

Lemma stop_unfold this :
  stop this
  = mkRun (Returned tt)
      (match pollTimer this with
       | Some _ => set_pollTimer None (set_running false this)
       | None => set_running false this
       end)
      [Console Log Stopped].
Proof. unfold stop. run_method. by destruct (pollTimer this). Qed.

Lemma ticks_stopped ws this :
  running this = false → ticks ws this = mkRun (Returned tt) this [].
Proof.
  intros Hr. induction ws as [|w ws IH]; [done|].
  rewrite ticks_cons, tick_unfold, Hr. cbn. by rewrite IH.
Qed.

(** X5.  [stop] resolves, clears the [running] flag and the timer
    handle, and a callback still fired afterwards does nothing: no log line,
    no request, no change of the monitor. *)
Theorem stopped_monitor_ignores_the_timer ws this :
  result (stop this) = Returned tt
  ∧ running (self (stop this)) = false
  ∧ pollTimer (self (stop this)) = None
  ∧ ticks ws (self (stop this)) = mkRun (Returned tt) (self (stop this)) [].
Proof.
  assert (running (self (stop this)) = false) as Hr.
  { rewrite stop_unfold. cbn. by destruct (pollTimer this). }
  split; [by rewrite stop_unfold|]. split; [done|].
  split; [rewrite stop_unfold; cbn; by destruct (pollTimer this) eqn:E |].
  by apply ticks_stopped.
Qed.

(** X6.  [stop] keeps both suppression stores and [lastKnownState], so
    a restart does not forget what was alerted: the initial sweep of a
    [start] after a [stop] stays silent about degraded instances while the
    aggregate key's expiry is still ahead. *)
Theorem restart_keeps_suppression w this fleet u :
  fleetEndpoint w = Returned fleet → conforms fleet = true →
  0 < degradedInstances fleet →
  suppressedInstances this !! "fleet-degraded" = Some u → clock w ≤ u →
  suppressedInstances (self (stop this)) = suppressedInstances this
  ∧ suppressedProviders (self (stop this)) = suppressedProviders this
  ∧ lastKnownState (self (stop this)) = lastKnownState this
  ∧ running (self (start w (self (stop this)))) = true
  ∧ ofType INSTANCE_DEGRADED (emitted (effects (start w (self (stop this))))) = [].
Proof.
  intros Hw Hconf Hd Hu Hlive.
  assert (suppressedInstances (self (stop this)) = suppressedInstances this
          ∧ suppressedProviders (self (stop this)) = suppressedProviders this
          ∧ lastKnownState (self (stop this)) = lastKnownState this
          ∧ running (self (stop this)) = false) as (HI & HP & HL & Hr).
  { rewrite stop_unfold. cbn. by destruct (pollTimer this). }
  split; [done|]. split; [done|]. split; [done|]. split; [apply start_running|].
  rewrite start_unfold, Hr. cbn [effects].
  set (restarted := set_running true (self (stop this))).
  assert (emitted (Console Log (Starting (default 300000
                     (healthPollIntervalMs (config (self (stop this))))))
                   :: effects (runSweep w restarted)
                   ++ match result (runSweep w restarted) with
                      | Returned _ => []
                      | Threw e => [Console Error (InitialSweepFailed e)]
                      end)
          = produced w restarted) as ->.
  { unfold produced, emitted. cbn. rewrite omap_app.
    destruct (result (runSweep w restarted)); cbn; by rewrite app_nil_r. }
  destruct (conforms_inv _ Hconf) as (entries & _ & _ & Hp & _).
  destruct (sweep_summary w restarted _ _ Hw Hconf Hp) as (_ & _ & _ & -> & _).
  destruct (afterInstanceCheck_key w restarted fleet Hd) as [_ ->].
  assert (suppressedInstances restarted !! "fleet-degraded" = Some u) as ->.
  { unfold restarted. cbn. by rewrite HI. }
  by rewrite notSuppressed_live.
Qed.

Lemma restart_keeps_suppression_witness :
  let fleet := Sample.snapshot 3 0 0 80 0 in
  let this := self (runSweep (Sample.at_ 0 fleet) Sample.started) in
  let restarted := start (Sample.at_ 600000 fleet) (self (stop this)) in
  running (self restarted) = true
  ∧ ofType INSTANCE_DEGRADED (emitted (effects restarted)) = []
  ∧ lastKnownState (self (stop this)) = Some fleet.
Proof.
  intros fleet this restarted.
  assert (600000 ≤ 1800000) as Hlive by discriminate.
  destruct (restart_keeps_suppression (Sample.at_ 600000 fleet) this fleet 1800000
              eq_refl eq_refl eq_refl eq_refl Hlive)
    as (_ & _ & Hlast & Hrun & Hnone).
  split; [exact Hrun|]. split; [exact Hnone|]. rewrite Hlast. reflexivity.
Defined.

(** ** Delivery *)

Lemma providers_clock w w' th entries :
  clock w = clock w' →
  ∀ L, providersPart w th L entries = providersPart w' th L entries
       ∧ providersLedger w th L entries = providersLedger w' th L entries.
Proof.
  intros Hc. induction entries as [|entry rest IH]; intros L; [done|].
  unfold providersLedger in *. cbn [providersPart foldl].
  assert (entryLedger w th L entry = entryLedger w' th L entry) as ->.
  { unfold entryLedger. by rewrite Hc. }
  assert (entryPart w th L entry = entryPart w' th L entry) as ->.
  { unfold entryPart, providerEvent. by rewrite Hc. }
  by destruct (IH (entryLedger w' th L entry)) as [-> ->].
Qed.

(** X7.  The outcome of the deliveries never reaches a sweep: two
    worlds that agree on the clock and on the fleet endpoint give the same
    run (result, monitor and effects), whatever the session endpoint
    answers or rejects with. *)
Theorem delivery_outcome_is_ignored w w' this :
  clock w = clock w' → fleetEndpoint w = fleetEndpoint w' →
  runSweep w this = runSweep w' this.
Proof.
  intros Hc Hf. rewrite !runSweep_eq, <- Hf.
  destruct (fleetEndpoint w) as [fleet|e]; [|done].
  assert (afterInstanceCheck w this fleet = afterInstanceCheck w' this fleet) as Ha.
  { unfold afterInstanceCheck, degradedDue. by rewrite Hc. }
  assert (failedPart w fleet = failedPart w' fleet) as <-.
  { unfold failedPart, failedEvent. by rewrite Hc. }
  rewrite <- Ha.
  destruct (failedPart w fleet) as [pushed|e]; [|done].
  destruct (cost fleet) as [c|]; [|done].
  destruct (byProvider fleet) as [entries|]; [|done].
  assert (sweepEvents w this fleet pushed c entries
          = sweepEvents w' this fleet pushed c entries) as <-.
  { unfold sweepEvents, degradedPart, degradedDue, degradedEvent, costPart, costEvent,
      queuePart, queueEvent, recoveryPart, recoveryEvent.
    rewrite Hc.
    by destruct (providers_clock w w' (thresholds this) entries Hc
                   (suppressedProviders this)) as [-> _]. }
  assert (sweepSelf w this fleet entries = sweepSelf w' this fleet entries) as <-; [|done].
  unfold sweepSelf. rewrite Ha.
  by destruct (providers_clock w w' (thresholds this) entries Hc
                 (suppressedProviders this)) as [_ ->].
Qed.

Lemma delivery_outcome_is_ignored_witness :
  let fleet := Sample.snapshot 3 2 0 80 0 in
  let down := {| clock := 1000; fleetEndpoint := Returned fleet;
                 sessionEndpoint := λ _ _, Threw (RequestError "ECONNREFUSED") |} in
  runSweep (Sample.at_ 1000 fleet) Sample.monitor = runSweep down Sample.monitor.
Proof.
  intros fleet down.
  exact (delivery_outcome_is_ignored (Sample.at_ 1000 fleet) down Sample.monitor
           eq_refl eq_refl).
Defined.

Lemma routed_queue_events_have_no_address cfg events :
  Forall routed events →
  ofType PROVISION_QUEUE_BACKLOG
    (filter (λ e, is_Some (truthy (getSessionId cfg (targetAgent e)))) events) = [].
Proof.
  induction 1 as [|e events He _ IH]; [done|].
  rewrite filter_cons. case_decide as Haddr; [|done].
  unfold ofType in *. rewrite filter_cons. case_decide as Ht; [|done].
  exfalso. unfold routed in He. rewrite Ht in He. cbn in He.
  assert (targetAgent e = forge) as Hforge by congruence.
  rewrite Hforge in Haddr. by destruct Haddr.
Qed.

(** X8.  Provision queue rule.  On a conforming snapshot a sweep
    produces one [PROVISION_QUEUE_BACKLOG] event exactly when
    [bootstrappingInstances] reaches the configured depth (the comparison is
    [>=]); it is addressed to [forge], of priority [high] above fifty and
    [medium] otherwise, and carries the depth twice and no [suppressUntil].
    Since [getSessionId] has no session for [forge], it is never posted. *)
Theorem queue_backlog_rule w this fleet :
  fleetEndpoint w = Returned fleet → conforms fleet = true →
  let depth := bootstrappingInstances fleet in
  let ceiling := provisionQueueDepth (thresholds this) in
  (ceiling ≤ depth →
     ∃ e, ofType PROVISION_QUEUE_BACKLOG (produced w this) = [e]
          ∧ targetAgent e = forge
          ∧ (50 < depth → priority e = high)
          ∧ (depth ≤ 50 → priority e = medium)
          ∧ payload e = QueuePayload depth depth
          ∧ suppressUntil e = None)
  ∧ (depth < ceiling → ofType PROVISION_QUEUE_BACKLOG (produced w this) = [])
  ∧ ofType PROVISION_QUEUE_BACKLOG (posted (effects (runSweep w this))) = [].
Proof.
  intros Hw Hconf depth ceiling.
  destruct (conforms_inv _ Hconf) as (entries & c & all & Hp & Hc & Ha & _).
  split; [|split].
  - intros Hge.
    destruct (runSweep_conforming w this _ _ _ _ Hw Hp Hc Ha) as (_ & _ & ->).
    rewrite (ofType_sweepEvents _ _ _ _ _ _ _ (failedPart_conforming w _ _ Ha)).
    unfold queuePart. fold depth ceiling. rewrite (proj2 (Z.leb_le _ _) Hge).
    exists (queueEvent w fleet). unfold queueEvent. cbn. fold depth.
    split; [done|]. split; [done|]. split; [|split; [|done]].
    + intros H. by rewrite (proj2 (Z.ltb_lt _ _) H).
    + intros H. by rewrite (proj2 (Z.ltb_ge _ _) H).
  - intros Hlt.
    destruct (runSweep_conforming w this _ _ _ _ Hw Hp Hc Ha) as (_ & _ & ->).
    rewrite (ofType_sweepEvents _ _ _ _ _ _ _ (failedPart_conforming w _ _ Ha)).
    unfold queuePart. fold depth ceiling. by rewrite (proj2 (Z.leb_gt _ _) Hlt).
  - destruct (produced_cases w this) as [[_ ->]|(? & ? & ? & ? & _ & _ & _ & ->)];
      [done|].
    apply routed_queue_events_have_no_address, produced_routed.
Qed.

Lemma queue_backlog_rule_witness :
  let busy := Sample.at_ 1000 (Sample.snapshot 0 0 60 80 0) in
  let calm := Sample.at_ 1000 (Sample.snapshot 0 0 19 80 0) in
  (∃ e, ofType PROVISION_QUEUE_BACKLOG (produced busy Sample.monitor) = [e]
        ∧ targetAgent e = forge ∧ priority e = high
        ∧ payload e = QueuePayload 60 60)
  ∧ ofType PROVISION_QUEUE_BACKLOG (produced calm Sample.monitor) = []
  ∧ ofType PROVISION_QUEUE_BACKLOG (posted (effects (runSweep busy Sample.monitor))) = [].
Proof.
  intros busy calm.
  destruct (queue_backlog_rule busy Sample.monitor _ eq_refl eq_refl)
    as (Hyes & _ & Hposted).
  destruct (queue_backlog_rule calm Sample.monitor _ eq_refl eq_refl)
    as (_ & Hno & _).
  assert (20 ≤ 60) as Hge by discriminate.
  assert (50 < 60) as Hhigh by reflexivity.
  assert (19 < 20) as Hlt by reflexivity.
  destruct (Hyes Hge) as (e & He & Ht & Hpri & _ & Hpay & _).
  split; [|split; [exact (Hno Hlt) | exact Hposted]].
  exists e. split; [exact He|]. split; [exact Ht|].
  split; [exact (Hpri Hhigh) | exact Hpay].
Defined.

(** ** The provider store *)

Lemma providersLedger_values w th entries :
  ∀ L p v,
    providersLedger w th L entries !! p = Some v →
    L !! p = Some v ∨ (v = clock w + 3600000 ∧ p ∈ entries.*1).
Proof.
  induction entries as [|[q sq] rest IH]; intros L p v Hv; [by left|].
  unfold providersLedger in *. cbn [foldl] in Hv.
  destruct (IH _ _ _ Hv) as [Hold|[-> Hin]].
  - unfold entryLedger in Hold. cbn in Hold.
    destruct (Qltb _ _); [destruct (notSuppressed _ _)|].
    + destruct (decide (q = p)) as [->|Hne].
      * rewrite lookup_insert_eq in Hold. right. split; [by simplify_eq|].
        rewrite fmap_cons. apply list_elem_of_here.
      * rewrite lookup_insert_ne in Hold by done. by left.
    + by left.
    + destruct (decide (q = p)) as [->|Hne].
      * by rewrite lookup_delete_eq in Hold.
      * rewrite lookup_delete_ne in Hold by done. by left.
  - right. split; [done|]. rewrite fmap_cons. by apply list_elem_of_further.
Qed.

Lemma runSweep_provider_store w this :
  suppressedProviders (self (runSweep w this)) = suppressedProviders this
  ∨ ∃ fleet entries,
      fleetEndpoint w = Returned fleet ∧ byProvider fleet = Some entries
      ∧ suppressedProviders (self (runSweep w this))
        = providersLedger w (thresholds this) (suppressedProviders this) entries.
Proof.
  rewrite runSweep_eq. destruct (fleetEndpoint w) as [fleet|e]; [|by left].
  destruct (afterInstanceCheck_frame w this fleet) as (_ & _ & _ & _ & HP & _).
  destruct (failedPart w fleet) as [pushed|e]; [|by left].
  destruct (cost fleet) as [c|]; [|by left].
  destruct (byProvider fleet) as [entries|] eqn:Hp; [|by left].
  right. exists fleet, entries. cbn [self].
  by destruct (sweepSelf_frame w this fleet entries) as (_ & _ & _ & _ & _ & -> & _).
Qed.

(** X9.  A sweep touches the provider store only at the providers of
    the snapshot it fetched, and every expiry it holds afterwards is either
    the one held before or the sweep's time plus one hour. *)
Theorem provider_store_footprint w this fleet entries :
  fleetEndpoint w = Returned fleet → byProvider fleet = Some entries →
  let before := suppressedProviders this in
  let after := suppressedProviders (self (runSweep w this)) in
  (∀ p, p ∉ entries.*1 → after !! p = before !! p)
  ∧ (∀ p v, after !! p = Some v →
       before !! p = Some v ∨ (v = clock w + 3600000 ∧ p ∈ entries.*1)).
Proof.
  intros Hw Hp before after. unfold before, after.
  destruct (runSweep_provider_store w this)
    as [->|(fleet' & entries' & Hw' & Hp' & ->)].
  - split; [done|]. intros p v Hv. by left.
  - assert (fleet' = fleet) as -> by congruence.
    assert (entries' = entries) as -> by congruence.
    split.
    + intros p Hnot. by apply providersLedger_absent.
    + apply providersLedger_values.
Qed.

Lemma provider_store_footprint_witness :
  let fleet := Sample.snapshot 0 0 0 60 0 in
  let this := set_suppressedProviders {["contabo" := 5000000]} Sample.monitor in
  let after := suppressedProviders (self (runSweep (Sample.at_ 1000 fleet) this)) in
  after !! "contabo" = Some 5000000
  ∧ (∀ p v, after !! p = Some v →
       suppressedProviders this !! p = Some v
       ∨ (v = 3601000 ∧ p ∈ ["hetzner"; "vultr"])).
Proof.
  intros fleet this after.
  destruct (provider_store_footprint (Sample.at_ 1000 fleet) this fleet _
              eq_refl eq_refl) as [Hkeep Hnew].
  split; [|exact Hnew].
  unfold after. rewrite Hkeep; [reflexivity|].
  intros Hin. apply elem_of_cons in Hin as [Hin|Hin]; [discriminate|].
  apply elem_of_cons in Hin as [Hin|Hin]; [discriminate|].
  by apply elem_of_nil in Hin.
Defined.

(** ** When a sweep rejects *)


(** ** Sweeps that produce nothing *)

(** X11.  The ledger is written before the events are emitted.  When a
    sweep over a snapshot with degraded instances rejects, none of its
    events is emitted, yet the aggregate key's expiry is already set: a
    later sweep of a conforming snapshot within the window produces no
    [INSTANCE_DEGRADED] event either. *)
Theorem aborted_sweep_loses_the_degraded_alert w1 w2 f1 f2 e this :
  fleetEndpoint w1 = Returned f1 → result (runSweep w1 this) = Threw e →
  0 < degradedInstances f1 →
  suppressedInstances this !! "fleet-degraded" = None →
  fleetEndpoint w2 = Returned f2 → conforms f2 = true → 0 < degradedInstances f2 →
  let expiry := clock w1 + degradedSuppressionMins (thresholds this) * 60000 in
  clock w2 ≤ expiry →
  produced w1 this = []
  ∧ suppressedInstances (self (runSweep w1 this)) !! "fleet-degraded" = Some expiry
  ∧ ofType INSTANCE_DEGRADED (produced w2 (self (runSweep w1 this))) = [].
Proof.
  intros Hw1 Hthrow Hd1 Hnone Hw2 Hc2 Hd2 expiry Hin.
  assert (produced w1 this = []) as Hquiet.
  { unfold produced. rewrite runSweep_eq, Hw1 in Hthrow |- *.
    destruct (failedPart w1 f1) as [pushed|e1]; [|done].
    destruct (cost f1) as [c|]; [|done].
    by destruct (byProvider f1) as [entries|]. }
  assert (suppressedInstances (self (runSweep w1 this)) !! "fleet-degraded"
          = Some expiry) as Hkey.
  { rewrite runSweep_aggregate_store, Hw1.
    destruct (afterInstanceCheck_key w1 this f1 Hd1) as [-> _]. by rewrite Hnone. }
  split; [done|]. split; [done|].
  destruct (conforms_inv _ Hc2) as (entries & _ & _ & Hp & _).
  destruct (sweep_summary w2 (self (runSweep w1 this)) _ _ Hw2 Hc2 Hp)
    as (_ & _ & _ & -> & _).
  destruct (afterInstanceCheck_key w2 (self (runSweep w1 this)) f2 Hd2) as [_ ->].
  by rewrite Hkey, notSuppressed_live.
Qed.

Lemma aborted_sweep_loses_the_degraded_alert_witness :
  let broken := Sample.at_ 0 (Sample.withoutCost (Sample.snapshot 3 0 0 80 0)) in
  let sound := Sample.at_ 300000 (Sample.snapshot 3 0 0 80 0) in
  produced broken Sample.monitor = []
  ∧ suppressedInstances (self (runSweep broken Sample.monitor)) !! "fleet-degraded"
    = Some 1800000
  ∧ ofType INSTANCE_DEGRADED (produced sound (self (runSweep broken Sample.monitor))) = [].
Proof.
  intros broken sound.
  assert (300000 ≤ 0 + 30 * 60000) as Hin by discriminate.
  exact (aborted_sweep_loses_the_degraded_alert broken sound _ _ (TypeError "cost")
           Sample.monitor eq_refl eq_refl eq_refl eq_refl eq_refl eq_refl eq_refl Hin).
Defined.

Lemma providers_all_healthy w th entries :
  (∀ p s, (p, s) ∈ entries → (providerDegradedScore th <= healthScore s)%Q) →
  ∀ L, providersPart w th L entries = []
       ∧ ∀ p, p ∈ entries.*1 → providersLedger w th L entries !! p = None.
Proof.
  induction entries as [|[q sq] rest IH]; intros Hall L.
  - split; [done|]. intros p Hp. by apply elem_of_nil in Hp.
  - assert ((providerDegradedScore th <= healthScore sq)%Q) as Hq.
    { apply (Hall q). apply list_elem_of_here. }
    assert (∀ p s, (p, s) ∈ rest → (providerDegradedScore th <= healthScore s)%Q)
      as Hrest.
    { intros p s Hin. apply (Hall p). by apply list_elem_of_further. }
    destruct (entry_healthy w th (L !! q) sq Hq) as [Hout Hpart].
    cbn [providersPart]. rewrite Hpart.
    destruct (IH Hrest (entryLedger w th L (q, sq))) as [-> Hgone].
    split; [done|]. intros p Hp. unfold providersLedger in *. cbn [foldl].
    destruct (decide (p ∈ rest.*1)) as [Hin|Hnot]; [by apply Hgone|].
    rewrite fmap_cons in Hp. apply elem_of_cons in Hp as [->|Hp]; [|done].
    fold (providersLedger w th (entryLedger w th L (q, sq)) rest).
    rewrite providersLedger_absent by done.
    by rewrite entryLedger_own.
Qed.

(** X12.  A sweep of a conforming snapshot that breaches no threshold
    and is no recovery logs its two debug lines around the one status
    request and does nothing else: no event, no delivery, the instance store
    unchanged, and no provider of the snapshot left in the provider store. *)
Theorem healthy_sweep_is_silent w this fleet c entries :
  fleetEndpoint w = Returned fleet → conforms fleet = true →
  cost fleet = Some c → byProvider fleet = Some entries →
  degradedInstances fleet = 0 → failedInstances fleet = 0 →
  (Qabs (deviationPct c) < costAnomalyPct (thresholds this))%Q →
  bootstrappingInstances fleet < provisionQueueDepth (thresholds this) →
  (∀ p s, (p, s) ∈ entries →
     (providerDegradedScore (thresholds this) <= healthScore s)%Q) →
  ¬ recoveryEdge (lastKnownState this) fleet →
  effects (runSweep w this)
  = [ Console Debug RunningSweep;
      HttpGet (gfApiBase (config this) +:+ "/v1/fleet/status") (gfApiKey (config this));
      Console Debug (SweepComplete 0) ]
  ∧ produced w this = []
  ∧ posted (effects (runSweep w this)) = []
  ∧ suppressedInstances (self (runSweep w this)) = suppressedInstances this
  ∧ (∀ p, p ∈ entries.*1 → suppressedProviders (self (runSweep w this)) !! p = None).
Proof.
  intros Hw Hconf Hc Hp Hd0 Hf0 Hdev Hq Hall Hno.
  destruct (conforms_inv _ Hconf) as (entries' & c' & all & Hp' & Hc' & Ha & _).
  destruct (providers_all_healthy w (thresholds this) entries Hall
              (suppressedProviders this)) as [Hpart Hgone].
  assert (sweepEvents w this fleet (failedEvents w fleet all) c entries = []) as Hnone.
  { unfold sweepEvents, degradedPart, degradedDue, failedEvents, costPart, queuePart.
    rewrite Hd0, Hf0, Hpart, (proj2 (Qgeb_false _ _) Hdev),
      (proj2 (Z.leb_gt _ _) Hq), (recoveryPart_no_edge w _ _ Hno). done. }
  assert (afterInstanceCheck w this fleet = this) as Hsame.
  { unfold afterInstanceCheck, degradedDue. by rewrite Hd0. }
  destruct (sweep_summary w this _ _ Hw Hconf Hp) as (_ & -> & -> & _).
  rewrite Hsame. unfold produced.
  rewrite runSweep_eq, Hw, (failedPart_conforming w _ _ Ha), Hc, Hp. cbn [effects].
  rewrite Hnone. cbn. done.
Qed.

Lemma healthy_sweep_is_silent_witness :
  let w := Sample.at_ 1000 (Sample.snapshot 0 0 0 80 0) in
  effects (runSweep w Sample.monitor)
  = [ Console Debug RunningSweep;
      HttpGet "https://gf.example/v1/fleet/status" "key";
      Console Debug (SweepComplete 0) ]
  ∧ produced w Sample.monitor = []
  ∧ posted (effects (runSweep w Sample.monitor)) = [].
Proof.
  intros w.
  assert ((Qabs 0 < 15)%Q) as Hdev by reflexivity.
  assert (0 < 20) as Hq by reflexivity.
  assert (∀ p s, (p, s) ∈ [("hetzner", Sample.hetzner 80); ("vultr", Sample.hetzner 90)] →
            (75 <= healthScore s)%Q) as Hall.
  { intros p s Hin. apply elem_of_cons in Hin as [Hin|Hin]; [by simplify_eq|].
    apply elem_of_cons in Hin as [Hin|Hin]; [by simplify_eq|].
    by apply elem_of_nil in Hin. }
  assert (¬ recoveryEdge (lastKnownState Sample.monitor) (Sample.snapshot 0 0 0 80 0))
    as Hno.
  { intros (previous & Hlast & _). discriminate Hlast. }
  destruct (healthy_sweep_is_silent w Sample.monitor _ (Sample.costs 0) _
              eq_refl eq_refl eq_refl eq_refl eq_refl eq_refl Hdev Hq Hall Hno)
    as (Heff & Hprod & Hpost & _).
  split; [exact Heff|]. split; [exact Hprod | exact Hpost].
Defined.

(** ** The shape of what a sweep produces *)

Lemma providersPart_length w th entries :
  ∀ L, (length (providersPart w th L entries) ≤ length entries)%nat.
Proof.
  induction entries as [|entry rest IH]; intros L; [done|].
  cbn [providersPart]. rewrite length_app. specialize (IH (entryLedger w th L entry)).
  unfold entryPart. destruct (_ && _); cbn; lia.
Qed.

Lemma sweepEvents_lengths w this fleet pushed c :
  failedPart w fleet = Returned pushed →
  (length (degradedPart w this fleet) ≤ 1)%nat
  ∧ (length pushed ≤ 1)%nat
  ∧ (length (option_list (costPart w (thresholds this) c)) ≤ 1)%nat
  ∧ (length (option_list (queuePart w (thresholds this) fleet)) ≤ 1)%nat
  ∧ (length (option_list (recoveryPart w (lastKnownState this) fleet)) ≤ 1)%nat.
Proof.
  intros Hf. repeat split.
  - unfold degradedPart. destruct (degradedDue _ _ _); cbn; lia.
  - unfold failedPart in Hf.
    destruct (0 <? _); [destruct (alerts fleet)|]; simplify_eq; cbn; lia.
  - unfold costPart. destruct (Qgeb _ _); cbn; lia.
  - unfold queuePart. destruct (_ <=? _); cbn; lia.
  - unfold recoveryPart.
    destruct (lastKnownState this); [destruct (_ && _)|]; cbn; lia.
Qed.

(** A sweep either produces nothing or completes with the events of its
    five checks. *)
Lemma sweep_cases w this :
  produced w this = []
  ∨ ∃ fleet pushed c entries,
      fleetEndpoint w = Returned fleet
      ∧ failedPart w fleet = Returned pushed
      ∧ cost fleet = Some c ∧ byProvider fleet = Some entries
      ∧ result (runSweep w this) = Returned tt
      ∧ self (runSweep w this) = sweepSelf w this fleet entries
      ∧ produced w this = sweepEvents w this fleet pushed c entries.
Proof.
  unfold produced. rewrite runSweep_eq.
  destruct (fleetEndpoint w) as [fleet|e]; [|by left].
  destruct (failedPart w fleet) as [pushed|e] eqn:Hf; [|by left].
  destruct (cost fleet) as [c|] eqn:Hc; [|by left].
  destruct (byProvider fleet) as [entries|] eqn:Hp; [|by left].
  right. exists fleet, pushed, c, entries. cbn [result self effects].
  by rewrite emitted_sweep.
Qed.

(** X13.  A sweep produces at most one event of each type other than
    [PROVIDER_DEGRADED], at most one [PROVIDER_DEGRADED] event per entry of
    the snapshot, hence at most five events more than the snapshot has
    providers. *)
Theorem sweep_event_bounds w this :
  (∀ T, T ≠ PROVIDER_DEGRADED → (length (ofType T (produced w this)) ≤ 1)%nat)
  ∧ (∀ fleet entries,
       fleetEndpoint w = Returned fleet → byProvider fleet = Some entries →
       (length (ofType PROVIDER_DEGRADED (produced w this)) ≤ length entries)%nat
       ∧ (length (produced w this) ≤ 5 + length entries)%nat).
Proof.
  destruct (sweep_cases w this)
    as [->|(fleet & pushed & c & entries & Hw & Hf & Hc & Hp & _ & _ & ->)].
  { split; [intros T _; cbn; lia | intros fleet entries _ _; cbn; lia]. }
  destruct (sweepEvents_lengths w this fleet pushed c Hf) as (H1 & H2 & H3 & H4 & H5).
  pose proof (providersPart_length w (thresholds this) entries (suppressedProviders this))
    as H6.
  split.
  - intros T HT. rewrite (ofType_sweepEvents _ _ _ _ _ _ _ Hf).
    destruct T; try done; cbn; lia.
  - intros fleet' entries' Hw' Hp'. assert (fleet' = fleet) as -> by congruence.
    assert (entries' = entries) as -> by congruence.
    rewrite (ofType_sweepEvents _ _ _ _ _ _ _ Hf).
    split; [done|]. unfold sweepEvents. rewrite !length_app. lia.
Qed.

(** X14.  The events of a sweep come in the order of the checks:
    [INSTANCE_DEGRADED], [PAIR_FAILED], [COST_ANOMALY],
    [PROVISION_QUEUE_BACKLOG], the [PROVIDER_DEGRADED] events, then
    [FLEET_RECOVERING]; no other type occurs. *)
Theorem events_are_grouped_by_type w this :
  produced w this
  = ofType INSTANCE_DEGRADED (produced w this)
    ++ ofType PAIR_FAILED (produced w this)
    ++ ofType COST_ANOMALY (produced w this)
    ++ ofType PROVISION_QUEUE_BACKLOG (produced w this)
    ++ ofType PROVIDER_DEGRADED (produced w this)
    ++ ofType FLEET_RECOVERING (produced w this).
Proof.
  destruct (sweep_cases w this)
    as [->|(fleet & pushed & c & entries & _ & Hf & _ & _ & _ & _ & ->)]; [done|].
  rewrite !(ofType_sweepEvents _ _ _ _ _ _ _ Hf). unfold sweepEvents.
  by rewrite <- !app_assoc.
Qed.

(** X15.  A sweep that produces [FLEET_RECOVERING] produces neither
    [INSTANCE_DEGRADED] nor [PAIR_FAILED]: the snapshot it fetched has no
    degraded and no failed instance. *)
Theorem recovery_excludes_failure_events w this :
  ofType FLEET_RECOVERING (produced w this) ≠ [] →
  ofType INSTANCE_DEGRADED (produced w this) = []
  ∧ ofType PAIR_FAILED (produced w this) = []
  ∧ ∃ fleet, fleetEndpoint w = Returned fleet
      ∧ degradedInstances fleet = 0 ∧ failedInstances fleet = 0.
Proof.
  destruct (sweep_cases w this)
    as [->|(fleet & pushed & c & entries & Hw & Hf & _ & _ & _ & _ & ->)]; [done|].
  rewrite !(ofType_sweepEvents _ _ _ _ _ _ _ Hf). intros Hrec.
  assert (failedInstances fleet = 0 ∧ degradedInstances fleet = 0) as [Hf0 Hd0].
  { unfold recoveryPart in Hrec. destruct (lastKnownState this); [|done].
    destruct (_ && _) eqn:E; [|done].
    apply andb_true_iff in E as [E Hd]. apply andb_true_iff in E as [_ Hf'].
    by apply Z.eqb_eq in Hd, Hf'. }
  split; [|split].
  - unfold degradedPart, degradedDue. by rewrite Hd0.
  - unfold failedPart in Hf. rewrite Hf0 in Hf. cbn in Hf. by simplify_eq.
  - by exists fleet.
Qed.

Lemma recovery_excludes_failure_events_witness :
  let previous := self (runSweep (Sample.at_ 0 (Sample.snapshot 2 1 0 80 0)) Sample.monitor) in
  let w := Sample.at_ 300000 (Sample.snapshot 0 0 0 80 0) in
  type <$> produced w previous = [FLEET_RECOVERING]
  ∧ ofType INSTANCE_DEGRADED (produced w previous) = []
  ∧ ofType PAIR_FAILED (produced w previous) = [].
Proof.
  intros previous w. split; [vm_compute; reflexivity|].
  assert (ofType FLEET_RECOVERING (produced w previous) ≠ []) as Hrec by (vm_compute; discriminate).
  destruct (recovery_excludes_failure_events w previous Hrec) as (Hd & Hf & _).
  split; [exact Hd | exact Hf].
Defined.

(** ** Events and the ledger agree *)

(** X16.  The [suppressUntil] an [INSTANCE_DEGRADED] event announces
    is the expiry its sweep leaves at the aggregate key: the sweep's time
    plus the configured window. *)
Theorem degraded_event_matches_the_ledger w this e :
  e ∈ ofType INSTANCE_DEGRADED (produced w this) →
  suppressUntil e
  = Some (clock w + degradedSuppressionMins (thresholds this) * 60000)
  ∧ suppressedInstances (self (runSweep w this)) !! "fleet-degraded" = suppressUntil e.
Proof.
  destruct (sweep_cases w this)
    as [->|(fleet & pushed & c & entries & Hw & Hf & _ & _ & _ & _ & ->)].
  { intros He. by apply elem_of_nil in He. }
  rewrite (ofType_sweepEvents _ _ _ _ _ _ _ Hf), runSweep_aggregate_store, Hw.
  unfold degradedPart, afterInstanceCheck. destruct (degradedDue w this fleet).
  - intros He. apply list_elem_of_singleton in He as ->. cbn.
    by rewrite lookup_insert_eq.
  - intros He. by apply elem_of_nil in He.
Qed.

Lemma degraded_event_matches_the_ledger_witness :
  let fleet := Sample.snapshot 3 0 0 80 0 in
  let w := Sample.at_ 1000 fleet in
  suppressUntil (degradedEvent w 1800000 fleet) = Some 1801000
  ∧ suppressedInstances (self (runSweep w Sample.monitor)) !! "fleet-degraded"
    = Some 1801000.
Proof.
  intros fleet w.
  assert (degradedEvent w 1800000 fleet
          ∈ ofType INSTANCE_DEGRADED (produced w Sample.monitor)) as Hin.
  { apply list_elem_of_here. }
  destruct (degraded_event_matches_the_ledger w Sample.monitor _ Hin) as [Hs Hl].
  split; [exact Hs | exact Hl].
Defined.

Lemma providersPart_elem w th entries :
  ∀ L e, e ∈ providersPart w th L entries →
         ∃ p s, (p, s) ∈ entries ∧ e = providerEvent w p s.
Proof.
  induction entries as [|[q sq] rest IH]; intros L e He.
  - by apply elem_of_nil in He.
  - cbn [providersPart] in He. apply elem_of_app in He as [He|He].
    + unfold entryPart in He. destruct (_ && _).
      * apply list_elem_of_singleton in He as ->. exists q, sq.
        split; [apply list_elem_of_here | done].
      * by apply elem_of_nil in He.
    + destruct (IH _ _ He) as (p & s & Hin & ->). exists p, s.
      split; [by apply list_elem_of_further | done].
Qed.

(** X17.  On a conforming snapshot, the [suppressUntil] a
    [PROVIDER_DEGRADED] event announces is the expiry its sweep leaves in the
    provider store for the provider the event names: the sweep's time plus
    one hour. *)
Theorem provider_event_matches_the_ledger w this fleet e :
  fleetEndpoint w = Returned fleet → conforms fleet = true →
  e ∈ ofType PROVIDER_DEGRADED (produced w this) →
  ∃ p, payloadProvider e = Some p
       ∧ suppressUntil e = Some (clock w + 3600000)
       ∧ suppressedProviders (self (runSweep w this)) !! p = suppressUntil e.
Proof.
  intros Hw Hconf He.
  destruct (conforms_inv _ Hconf) as (entries & c & all & Hp & Hc & Ha & Hd).
  destruct (runSweep_conforming w this _ _ _ _ Hw Hp Hc Ha) as (_ & _ & Hprod).
  pose proof He as He'. rewrite Hprod in He'.
  rewrite (ofType_sweepEvents _ _ _ _ _ _ _ (failedPart_conforming w _ _ Ha)) in He'.
  destruct (providersPart_elem w _ _ _ _ He') as (p & s & Hin & ->).
  exists p. split; [done|]. split; [done|].
  assert (observes w p s) as O by (by exists fleet, entries).
  destruct (sweep_provider w this _ _ O) as (_ & -> & Hfor).
  assert (providerEvent w p s ∈ forProvider p (produced w this)) as Hmem.
  { unfold forProvider. apply list_elem_of_filter. split; [done|].
    unfold ofType in He. by apply list_elem_of_filter in He as [_ ?]. }
  rewrite Hfor in Hmem. unfold entryPart, entryOutcome in *. cbn in *.
  destruct (Qltb _ _); [|by apply elem_of_nil in Hmem].
  destruct (notSuppressed _ _); [done | by apply elem_of_nil in Hmem].
Qed.

Lemma provider_event_matches_the_ledger_witness :
  let fleet := Sample.snapshot 0 0 0 40 0 in
  let w := Sample.at_ 1000 fleet in
  ∃ p, payloadProvider (providerEvent w "hetzner" (Sample.hetzner 40)) = Some p
       ∧ suppressUntil (providerEvent w "hetzner" (Sample.hetzner 40)) = Some 3601000
       ∧ suppressedProviders (self (runSweep w Sample.monitor)) !! p = Some 3601000.
Proof.
  intros fleet w.
  assert (providerEvent w "hetzner" (Sample.hetzner 40)
          ∈ ofType PROVIDER_DEGRADED (produced w Sample.monitor)) as Hin.
  { apply list_elem_of_here. }
  exact (provider_event_matches_the_ledger w Sample.monitor fleet _ eq_refl eq_refl Hin).
Defined.

(** ** Diagnostics *)

Lemma live_entries_zero (m : gmap string Z) (now : Z) :
  length (filter (λ kd, now < kd.2) (map_to_list m)) = 0%nat
  ↔ ∀ k d, m !! k = Some d → d ≤ now.
Proof.
  split.
  - intros Hlen k d Hkd. apply nil_length_inv in Hlen.
    destruct (decide (now < d)) as [Hlt|]; [|lia]. exfalso.
    apply (filter_nil_not_elem_of _ _ (k, d) Hlen); [done|].
    by apply elem_of_map_to_list.
  - intros Hall. destruct (filter _ _) as [|[k d] rest] eqn:E; [done|]. exfalso.
    assert ((k, d) ∈ filter (λ kd : string * Z, now < kd.2) (map_to_list m)) as Hin.
    { rewrite E. apply list_elem_of_here. }
    apply list_elem_of_filter in Hin as [Hlt Hin]. cbn in Hlt.
    apply elem_of_map_to_list in Hin. specialize (Hall _ _ Hin). lia.
Qed.

(** X18.  [getSuppressedCount] is zero exactly when no entry of either
    store lies strictly after the current time, and it never exceeds the
    number of entries of the two stores. *)
Theorem suppressed_count_is_zero_iff w this :
  (getSuppressedCount w this = 0%nat
   ↔ (∀ k d, suppressedInstances this !! k = Some d → d ≤ clock w)
     ∧ (∀ k d, suppressedProviders this !! k = Some d → d ≤ clock w))
  ∧ (getSuppressedCount w this
     ≤ size (suppressedInstances this) + size (suppressedProviders this))%nat.
Proof.
  unfold getSuppressedCount. split.
  - rewrite <- !live_entries_zero. lia.
  - rewrite <- !length_map_to_list.
    pose proof (length_filter (λ kd : string * Z, clock w < kd.2)
                  (map_to_list (suppressedInstances this))).
    pose proof (length_filter (λ kd : string * Z, clock w < kd.2)
                  (map_to_list (suppressedProviders this))).
    lia.
Qed.

(** X19.  The count and the checks disagree at the boundary: at the
    very instant of the aggregate key's expiry [getSuppressedCount] (which
    tests [now < d]) no longer counts the entry, while a sweep (which tests
    [now > d]) still withholds the [INSTANCE_DEGRADED] event. *)
Theorem count_misses_an_entry_at_its_expiry w this fleet :
  fleetEndpoint w = Returned fleet → conforms fleet = true →
  0 < degradedInstances fleet →
  suppressedInstances this !! "fleet-degraded" = Some (clock w) →
  (∀ k d, suppressedInstances this !! k = Some d → d ≤ clock w) →
  (∀ k d, suppressedProviders this !! k = Some d → d ≤ clock w) →
  getSuppressedCount w this = 0%nat
  ∧ ofType INSTANCE_DEGRADED (produced w this) = [].
Proof.
  intros Hw Hconf Hd Hkey HI HP. split.
  - unfold getSuppressedCount.
    rewrite (proj2 (live_entries_zero _ _) HI), (proj2 (live_entries_zero _ _) HP).
    done.
  - destruct (conforms_inv _ Hconf) as (entries & _ & _ & Hp & _).
    destruct (sweep_summary w this _ _ Hw Hconf Hp) as (_ & _ & _ & -> & _).
    destruct (afterInstanceCheck_key w this fleet Hd) as [_ ->].
    rewrite Hkey. by rewrite notSuppressed_live.
Qed.

Lemma count_misses_an_entry_at_its_expiry_witness :
  let this := set_suppressedInstances {["fleet-degraded" := 1000]} Sample.monitor in
  let w := Sample.at_ 1000 (Sample.snapshot 3 0 0 80 0) in
  getSuppressedCount w this = 0%nat
  ∧ ofType INSTANCE_DEGRADED (produced w this) = [].
Proof.
  intros this w.
  assert (∀ k d, suppressedInstances this !! k = Some d → d ≤ 1000) as HI.
  { intros k d Hkd. cbn in Hkd. apply lookup_singleton_Some in Hkd as [_ <-].
    discriminate. }
  assert (∀ k d, suppressedProviders this !! k = Some d → d ≤ 1000) as HP.
  { intros k d Hkd. cbn in Hkd. by rewrite lookup_empty in Hkd. }
  exact (count_misses_an_entry_at_its_expiry w this _ eq_refl eq_refl eq_refl eq_refl
           HI HP).
Defined.

(** ** Providers without a live entry *)

Lemma providersPart_unsuppressed w th entries :
  distinctKeys entries = true →
  ∀ L, (∀ p s u, (p, s) ∈ entries → L !! p = Some u → u < clock w) →
       providersPart w th L entries
       = (λ ps, providerEvent w ps.1 ps.2)
           <$> filter (λ ps, Qltb (healthScore ps.2) (providerDegradedScore th) = true)
                 entries.
Proof.
  induction entries as [|[q sq] rest IH]; intros Hd L Hfree; [done|].
  apply distinctKeys_cons in Hd as [Hq Hd].
  cbn [providersPart]. rewrite filter_cons.
  assert (notSuppressed (clock w) (L !! q) = true) as Hopen.
  { destruct (L !! q) as [u|] eqn:E; [|done]. apply notSuppressed_expired.
    apply (Hfree q sq); [apply list_elem_of_here | done]. }
  rewrite IH; [|done|].
  - unfold entryPart. cbn [fst snd]. rewrite Hopen.
    destruct (Qltb (healthScore sq) (providerDegradedScore th)) eqn:Hlow; cbn [andb].
    + by rewrite decide_True.
    + by rewrite decide_False.
  - intros p s u Hin Hu. apply (Hfree p s); [by apply list_elem_of_further|].
    rewrite entryLedger_other in Hu; [done|]. cbn.
    intros ->. apply Hq. apply list_elem_of_fmap. by exists (p, s).
Qed.

(** X20.  When no provider of a conforming snapshot has a live entry
    in the provider store, the [PROVIDER_DEGRADED] events of the sweep are
    exactly those of the providers whose score is below the threshold, one
    each, in the snapshot's order. *)
Theorem unsuppressed_providers_are_all_reported w this fleet entries :
  fleetEndpoint w = Returned fleet → conforms fleet = true →
  byProvider fleet = Some entries →
  (∀ p s u, (p, s) ∈ entries → suppressedProviders this !! p = Some u → u < clock w) →
  ofType PROVIDER_DEGRADED (produced w this)
  = (λ ps, providerEvent w ps.1 ps.2)
      <$> filter (λ ps, Qltb (healthScore ps.2)
                          (providerDegradedScore (thresholds this)) = true)
            entries.
Proof.
  intros Hw Hconf Hp Hfree.
  destruct (conforms_inv _ Hconf) as (entries' & c & all & Hp' & Hc & Ha & Hd).
  assert (entries' = entries) as -> by congruence.
  destruct (runSweep_conforming w this _ _ _ _ Hw Hp Hc Ha) as (_ & _ & ->).
  rewrite (ofType_sweepEvents _ _ _ _ _ _ _ (failedPart_conforming w _ _ Ha)).
  by apply providersPart_unsuppressed.
Qed.

Lemma unsuppressed_providers_are_all_reported_witness :
  let w := Sample.at_ 1000 (Sample.snapshot 0 0 0 40 0) in
  payloadProvider <$> ofType PROVIDER_DEGRADED (produced w Sample.monitor)
  = [Some "hetzner"].
Proof.
  intros w.
  assert (∀ p s u,
            (p, s) ∈ [("hetzner", Sample.hetzner 40); ("vultr", Sample.hetzner 90)] →
            suppressedProviders Sample.monitor !! p = Some u → u < 1000) as Hfree.
  { intros p s u _ Hu. cbn in Hu. by rewrite lookup_empty in Hu. }
  rewrite (unsuppressed_providers_are_all_reported w Sample.monitor _ _
             eq_refl eq_refl eq_refl Hfree).
  reflexivity.
Defined.

(** ** A window that is not positive *)



(** ** The status request *)

Lemma requested_emitEffects cfg events :
  requested (flat_map (emitEffects cfg) events) = [].
Proof.
  induction events as [|event rest IH]; [done|].
  cbn [flat_map]. unfold requested in *. rewrite omap_app, IH.
  unfold emitEffects. by destruct (truthy _).
Qed.

Lemma runSweep_requested w this :
  requested (effects (runSweep w this))
  = [ (gfApiBase (config this) +:+ "/v1/fleet/status", gfApiKey (config this)) ].
Proof.
  rewrite runSweep_eq. destruct (fleetEndpoint w) as [fleet|e]; [|done].
  destruct (failedPart w fleet) as [pushed|e]; [|done].
  destruct (cost fleet) as [c|]; [|done].
  destruct (byProvider fleet) as [entries|]; [|done].
  cbn [effects]. unfold requested. rewrite !omap_app.
  fold (requested (flat_map (emitEffects (config this))
                     (sweepEvents w this fleet pushed c entries))).
  by rewrite requested_emitEffects.
Qed.

(** X22.  Every sweep issues exactly one status request, to
    [<gfApiBase>/v1/fleet/status] with the configured key, whatever follows;
    a running monitor therefore issues one request per timer callback and a
    stopped one none. *)
Theorem each_sweep_fetches_once :
  (∀ w this,
     requested (effects (runSweep w this))
     = [ (gfApiBase (config this) +:+ "/v1/fleet/status", gfApiKey (config this)) ])
  ∧ (∀ ws this,
       length (requested (effects (ticks ws this)))
       = if running this then length ws else 0%nat).
Proof.
  split; [apply runSweep_requested|].
  intros ws. induction ws as [|w ws IH]; intros this; [by destruct (running this)|].
  rewrite ticks_cons. cbn [effects]. unfold requested in *.
  rewrite omap_app, length_app, IH.
  destruct (tick_eq w this) as (_ & _ & ->).
  rewrite tick_unfold. destruct (running this); [|done].
  pose proof (runSweep_requested w this) as Hone. unfold requested in Hone.
  destruct (result (runSweep w this)); cbn [effects].
  - by rewrite Hone.
  - rewrite omap_app, Hone. done.
Qed.

(* ================================================================== *)
(** * The audit trail query *)
(* ================================================================== *)

Lemma setText_keys key v : sublist (AuditLog.setText key v).*1 [key].
Proof.
  unfold AuditLog.setText. destruct (truthy v); cbn; [done|].
  by apply sublist_cons, sublist_nil.
Qed.

Lemma setLimit_keys v : sublist (AuditLog.setLimit v).*1 ["limit"].
Proof.
  unfold AuditLog.setLimit. destruct v as [l|]; [destruct (Qeq_bool l 0)|]; cbn;
    first [done | by apply sublist_cons, sublist_nil].
Qed.

Lemma setOutcome_keys v : sublist (AuditLog.setOutcome v).*1 ["outcome"].
Proof.
  unfold AuditLog.setOutcome. destruct (truthy v) as [s|]; [case_bool_decide|]; cbn;
    first [done | by apply sublist_cons, sublist_nil].
Qed.

Lemma queryParams_keys params :
  sublist (AuditLog.queryParams params).*1 AuditLog.keys.
Proof.
  unfold AuditLog.queryParams, AuditLog.keys. rewrite !fmap_app.
  repeat (apply (sublist_app _ [_]); [apply setText_keys|]).
  apply (sublist_app _ [_]); [apply setLimit_keys | apply setOutcome_keys].
Qed.

Lemma truthy_Some v s : truthy v = Some s → v = Some s ∧ s ≠ "".
Proof. destruct v as [[|a r]|]; cbn; intros H; by simplify_eq. Qed.

Lemma setText_elem key v k x :
  (k, x) ∈ AuditLog.setText key v →
  k = key ∧ ∃ s, x = AuditLog.Text s ∧ v = Some s ∧ s ≠ "".
Proof.
  unfold AuditLog.setText. destruct (truthy v) as [s|] eqn:E.
  - intros Hin. apply list_elem_of_singleton in Hin. simplify_eq.
    apply truthy_Some in E as [-> Hs]. eauto.
  - intros Hin. by apply elem_of_nil in Hin.
Qed.

Lemma setLimit_elem v k x :
  (k, x) ∈ AuditLog.setLimit v →
  k = "limit" ∧ ∃ l, v = Some l ∧ Qeq_bool l 0 = false
                     ∧ x = AuditLog.Number (AuditLog.min l 500).
Proof.
  unfold AuditLog.setLimit. destruct v as [l|]; [destruct (Qeq_bool l 0) eqn:E|];
    intros Hin; try by apply elem_of_nil in Hin.
  apply list_elem_of_singleton in Hin. simplify_eq. eauto.
Qed.

Lemma setOutcome_elem v k x :
  (k, x) ∈ AuditLog.setOutcome v →
  k = "outcome" ∧ ∃ s, x = AuditLog.Text s ∧ v = Some s ∧ s ≠ "" ∧ s ≠ "all".
Proof.
  unfold AuditLog.setOutcome. destruct (truthy v) as [s|] eqn:E;
    [case_bool_decide|]; intros Hin; try by apply elem_of_nil in Hin.
  apply list_elem_of_singleton in Hin. simplify_eq.
  apply truthy_Some in E as [-> Hs]. eauto 6.
Qed.

Lemma min_spec (a b : Q) :
  (AuditLog.min a b <= b)%Q ∧ (AuditLog.min a b <= a)%Q
  ∧ ((a <= b)%Q → AuditLog.min a b = a).
Proof.
  unfold AuditLog.min. destruct (Qle_bool a b) eqn:E.
  - apply Qle_bool_iff in E. split; [done|]. split; [apply Qle_refl | done].
  - assert (¬ (a <= b)%Q) as Hn.
    { intros H. apply Qle_bool_iff in H. congruence. }
    split; [apply Qle_refl|]. split; [|done].
    apply Qlt_le_weak. by apply Qnot_le_lt.
Qed.

(** X23.  The audit query never asks for more than 500 records.  A
    [limit] pair is sent exactly when a limit other than zero was given; its
    value is at most 500 and at most the given limit, and it is the given
    limit whenever that is at most 500 (a negative limit included). *)
Theorem audit_limit_is_capped params :
  (∀ v, ("limit", v) ∈ AuditLog.queryParams params →
     ∃ l n, params ≫= AuditLog.limit = Some l ∧ v = AuditLog.Number n
            ∧ ¬ (l == 0)%Q ∧ (n <= 500)%Q ∧ (n <= l)%Q
            ∧ ((l <= 500)%Q → n = l))
  ∧ ((∀ v, ("limit", v) ∉ AuditLog.queryParams params)
     ↔ ∀ l, params ≫= AuditLog.limit = Some l → (l == 0)%Q).
Proof.
  assert (∀ v, ("limit", v) ∈ AuditLog.queryParams params
               ↔ ("limit", v) ∈ AuditLog.setLimit
                                   (AuditLog.limit (default AuditLog.noFilters params)))
    as Hlimit.
  { intros v. unfold AuditLog.queryParams. cbn zeta. rewrite !elem_of_app. split.
    - intros H. repeat (destruct H as [H|H];
        [by apply setText_elem in H as [? _]|]).
      destruct H as [H|H]; [done|]. by apply setOutcome_elem in H as [? _].
    - intros H. do 6 right. by left. }
  assert (AuditLog.limit (default AuditLog.noFilters params)
          = params ≫= AuditLog.limit) as Hp by by destruct params.
  split.
  - intros v Hin. apply Hlimit, setLimit_elem in Hin as (_ & l & Hl & Hz & ->).
    destruct (min_spec l 500) as (H1 & H2 & H3).
    exists l, (AuditLog.min l 500). rewrite <- Hp. split; [done|]. split; [done|].
    split; [|done].
    intros Heq. apply Qeq_bool_iff in Heq. congruence.
  - rewrite <- Hp. destruct (AuditLog.limit _) as [l|] eqn:E; split.
    + intros Hnone l' [= <-]. destruct (Qeq_bool l 0) eqn:Hz.
      * by apply Qeq_bool_iff.
      * exfalso. apply (Hnone (AuditLog.Number (AuditLog.min l 500))).
        apply Hlimit. rewrite ?E. unfold AuditLog.setLimit. rewrite Hz.
        apply list_elem_of_here.
    + intros Hz v Hin. apply Hlimit in Hin. rewrite ?E in Hin.
      apply setLimit_elem in Hin as (_ & l' & [= <-] & Hnz & _).
      pose proof (Hz l eq_refl) as Hzero. apply Qeq_bool_iff in Hzero. congruence.
    + done.
    + intros _ v Hin. apply Hlimit in Hin. rewrite ?E in Hin.
      by apply elem_of_nil in Hin.
Qed.

(** X24.  The audit query holds each key at most once, in the order
    of the statements of [execute]; no text filter is sent empty, the
    outcome ["all"] is never sent, and absent parameters give the empty
    query. *)
Theorem audit_query_is_well_formed params :
  NoDup (AuditLog.queryParams params).*1
  ∧ sublist (AuditLog.queryParams params).*1 AuditLog.keys
  ∧ (∀ k s, (k, AuditLog.Text s) ∈ AuditLog.queryParams params → s ≠ "")
  ∧ (("outcome", AuditLog.Text "all") ∉ AuditLog.queryParams params)
  ∧ (AuditLog.queryParams None = []).
Proof.
  split; [|split; [|split; [|split]]].
  - apply (sublist_NoDup _ AuditLog.keys); [|apply queryParams_keys].
    unfold AuditLog.keys. repeat (apply NoDup_cons; split; [|]);
      try apply NoDup_nil_2; rewrite ?elem_of_cons, elem_of_nil; intros H;
      repeat (destruct H as [H|H]; [discriminate|]); done.
  - apply queryParams_keys.
  - intros k s. unfold AuditLog.queryParams. cbn zeta. rewrite !elem_of_app.
    intros H. repeat (destruct H as [H|H];
      [by apply setText_elem in H as (_ & ? & ? & _ & ?); simplify_eq|]).
    destruct H as [H|H].
    + by apply setLimit_elem in H as (_ & ? & _ & _ & ?).
    + by apply setOutcome_elem in H as (_ & ? & ? & _ & ? & _); simplify_eq.
  - unfold AuditLog.queryParams. cbn zeta. rewrite !elem_of_app.
    intros H. repeat (destruct H as [H|H];
      [by apply setText_elem in H as [? _]|]).
    destruct H as [H|H].
    + by apply setLimit_elem in H as [? _].
    + apply setOutcome_elem in H as (_ & ? & ? & _ & _ & ?). by simplify_eq.
  - reflexivity.
Qed.
